(** * Local deep copy: a model of core/unit_test/TestLocalDeepCopy.hpp

    The file embeds the test drivers of [TestLocalDeepCopy.hpp] and the
    Kokkos facilities they call.  Memory is one flat address space of
    doubles; a view is a handle (data pointer, extents, strides) into it,
    so that subviews alias the storage of their parent.

    Conventions.
    - Every double stored by the tests is an integer value ([i], [20],
      [6.], [0]); element values are modelled by [Z].
    - C [int] values are modelled by [Z], with the 32-bit wrap-around of
      the arithmetic written out in module [Int].
    - Extents, strides and addresses are [nat].  So are the flat indices
      the lambdas of the dispatches over a span receive ([int i] in the
      source): spans that do not fit an [int] are outside the model.
    - A parallel dispatch runs its iterations one after the other, in the
      order a schedule chooses; every property holds for every schedule.
      The body of a team lambda is run once per team, its collective calls
      going over the work of all lanes of the team. *)

From Stdlib Require Import ZArith Lia List Bool Permutation.
From stdpp Require Import base numbers list.

Set Default Proof Using "Type".

(** ** Results and the memory monad *)

Inductive Err : Type :=
  | StaticAssert       (* rejected at compile time *)
  | ContractViolation  (* shape mismatch handed to a copy *)
  | OutOfBounds.       (* access outside the storage, selector outside an extent *)

Inductive Result (A : Type) : Type :=
  | Ok (a : A)
  | Fail (e : Err).
Arguments Ok {A} a.
Arguments Fail {A} e.

Definition rbind {A B} (r : Result A) (k : A -> Result B) : Result B :=
  match r with
  | Ok a => k a
  | Fail e => Fail e
  end.

(** The address space: cell [a] holds [m !! a]. *)
Abbreviation Mem := (list Z).

(** Computations that read and write memory and may fail. *)
Definition M (A : Type) : Type := Mem -> Result (A * Mem).

Definition ret {A} (a : A) : M A := fun m => Ok (a, m).

Definition bind {A B} (c : M A) (k : A -> M B) : M B :=
  fun m => match c m with
           | Ok (a, m') => k a m'
           | Fail e => Fail e
           end.

Definition fail {A} (e : Err) : M A := fun _ => Fail e.

Definition lift {A} (r : Result A) : M A :=
  fun m => match r with
           | Ok a => Ok (a, m)
           | Fail e => Fail e
           end.

Notation "'let*' x ':=' c 'in' k" := (bind c (fun x => k))
  (at level 10, x name, c at level 100, k at level 200, only parsing).
Notation "c ;; k" := (bind c (fun _ => k))
  (at level 100, k at level 200, right associativity, only parsing).

(** [p[a]] read and [p[a] = v] written through a raw pointer.  C++ leaves
    an access outside the allocation undefined; here it fails. *)
Definition load (a : nat) : M Z :=
  fun m => match m !! a with
           | Some v => Ok (v, m)
           | None => Fail OutOfBounds
           end.

Definition store (a : nat) (v : Z) : M unit :=
  fun m => if decide (a < length m) then Ok (tt, <[a:=v]> m)
           else Fail OutOfBounds.

(** A loop over [iters], in list order. *)
Fixpoint for_each {I} (iters : list I) (body : I -> M unit) : M unit :=
  match iters with
  | [] => ret tt
  | i :: iters' => body i ;; for_each iters' body
  end.

(** A reduction over [iters]: [body i acc] is the lambda updating its
    thread-local accumulator. *)
Fixpoint reduce_each {I T} (iters : list I) (body : I -> T -> M T) (acc : T)
  : M T :=
  match iters with
  | [] => ret acc
  | i :: iters' => let* acc' := body i acc in reduce_each iters' body acc'
  end.

(** ** Schedules

    The runtime is free to run the iterations of a parallel dispatch in
    any order.  A schedule fixes the order: it permutes every iteration
    list. *)
Class Schedule : Type := {
  sched : forall {I : Type}, list I -> list I;
  sched_fair : forall {I : Type} (l : list I), Permutation (sched l) l
}.

(** The schedule that runs the iterations in index order, and the one
    that runs them in reverse. *)
Definition in_order : Schedule :=
  {| sched := fun _ l => l;
     sched_fair := fun _ l => Permutation_refl l |}.

Definition reversed : Schedule :=
  {| sched := fun _ l => rev l;
     sched_fair := fun _ l => Permutation_sym (Permutation_rev l) |}.

(** Modelled from the spec: [Kokkos::parallel_for] (the dispatch engine
    is not in the source file) runs [body] once for every element of the
    iteration space [iters]. *)
Definition parallel_for `{Schedule} {I} (iters : list I) (body : I -> M unit)
  : M unit :=
  for_each (sched iters) body.

(** Modelled from the spec: [Kokkos::parallel_reduce] (not in the source
    file) over [iters]; [init] is the identity of the reducer, [body] folds
    one iteration into the accumulator.  The reducers of the tests, logical
    and and sum, do not depend on the order. *)
Definition parallel_reduce `{Schedule} {I T} (iters : list I)
    (body : I -> T -> M T) (init : T) : M T :=
  reduce_each (sched iters) body init.

(** ** C [int] arithmetic *)

Module Int.
Definition min_int : Z := - 2 ^ 31.
Definition max_int : Z := 2 ^ 31 - 1.
Definition in_range (z : Z) : Prop := (min_int <= z <= max_int)%Z.

Definition wrap (z : Z) : Z := ((z + 2 ^ 31) mod 2 ^ 32 - 2 ^ 31)%Z.

Definition add (a b : Z) : Z := wrap (a + b).
Definition mul (a b : Z) : Z := wrap (a * b).
(** [a / b] and [a % b] truncate toward zero.  Division by zero is
    undefined in C; [Z.quot a 0 = 0] and [Z.rem a 0 = a] here. *)
Definition div (a b : Z) : Z := wrap (Z.quot a b).
Definition rem (a b : Z) : Z := Z.rem a b.

(** The integers [0, 1, ..., n-1]. *)
Definition range (n : Z) : list Z := Z.of_nat <$> seq 0 (Z.to_nat n).
End Int.

(** ** Views *)

Inductive Layout : Type := LayoutLeft | LayoutRight.

(** Modelled from the spec: the view handle of the view library (not in
    the source file): extents per dimension, a layout given by its strides
    and a raw data pointer, the address of element (0,...,0).  It owns no
    storage. *)
Record View : Type := mkView {
  data : nat;
  extents : list nat;
  strides : list nat
}.

Definition rank (v : View) : nat := length (extents v).

(** Number of elements of an index space. *)
Fixpoint size_of (es : list nat) : nat :=
  match es with
  | [] => 1
  | e :: es' => e * size_of es'
  end.

Definition size (v : View) : nat := size_of (extents v).

(** Modelled from the spec: [View::span()] is not in the source file; the
    spec calls it the total element count of the view.  It is only taken
    of the whole views [A] and [B]. *)
Definition span (v : View) : nat := size_of (extents v).

(** LayoutLeft: the first index is the fastest. *)
Fixpoint strides_left (s : nat) (es : list nat) : list nat :=
  match es with
  | [] => []
  | e :: es' => s :: strides_left (s * e) es'
  end.

(** LayoutRight: the last index is the fastest. *)
Fixpoint strides_right (es : list nat) : list nat :=
  match es with
  | [] => []
  | e :: es' => size_of es' :: strides_right es'
  end.

(** Modelled from the spec: the Linear Layout Mapper of the view library
    (not in the source file), row-major-like and column-major-like. *)
Definition layout_strides (L : Layout) (es : list nat) : list nat :=
  match L with
  | LayoutLeft => strides_left 1 es
  | LayoutRight => strides_right es
  end.

Fixpoint offset (ss : list nat) (idx : list nat) : nat :=
  match ss, idx with
  | s :: ss', i :: idx' => i * s + offset ss' idx'
  | _, _ => 0
  end.

(** Address of [v(i0, ..., iR-1)]. *)
Definition elem_addr (v : View) (idx : list nat) : nat :=
  data v + offset (strides v) idx.

(** An index tuple inside the extents. *)
Definition in_bounds (es idx : list nat) : Prop :=
  Forall2 (fun i e => i < e) idx es.

(** The coordinates of flat index [i], first coordinate fastest. *)
Fixpoint unflatten (es : list nat) (i : nat) : list nat :=
  match es with
  | [] => []
  | e :: es' => i mod e :: unflatten es' (i / e)
  end.

Definition flat_addr (v : View) (i : nat) : nat :=
  elem_addr v (unflatten (extents v) i).

(** ** Subviews *)

(** Per-dimension selectors of a subview: an index, [Kokkos::ALL], a pair
    [(a, b)] standing for the range from [a] to [b], [b] excluded. *)
Inductive Sel : Type :=
  | SelIndex (i : Z)
  | SelAll
  | SelRange (a b : Z).

(** The offset, extents and strides a list of selectors leaves. *)
Fixpoint subview_map (es ss : list nat) (sels : list Sel)
  : Result (nat * list nat * list nat) :=
  match es, ss, sels with
  | [], [], [] => Ok (0, [], [])
  | e :: es', s :: ss', sel :: sels' =>
      rbind (subview_map es' ss' sels') (fun '(off, es2, ss2) =>
        match sel with
        | SelIndex i =>
            if decide (0 <= i < Z.of_nat e)%Z
            then Ok (Z.to_nat i * s + off, es2, ss2)
            else Fail OutOfBounds
        | SelAll => Ok (off, e :: es2, s :: ss2)
        | SelRange a b =>
            if decide (0 <= a <= b /\ b <= Z.of_nat e)%Z
            then Ok (Z.to_nat a * s + off, Z.to_nat (b - a) :: es2, s :: ss2)
            else Fail OutOfBounds
        end)
  | _, _, _ => Fail StaticAssert
  end.

(** Modelled from the spec: [Kokkos::subview] is not in the source file.
    Given a parent view and one selector per dimension it produces a view
    handle aliasing the same storage with adjusted extents and offset; no
    element is copied.  A selector count different from the rank does not
    compile; a selector outside the extent is a bounds error. *)
Definition subview (v : View) (sels : list Sel) : Result View :=
  rbind (subview_map (extents v) (strides v) sels) (fun '(off, es2, ss2) =>
    Ok (mkView (data v + off) es2 ss2)).

(** [make_array<T, Rank>(value)] *)
Fixpoint make_array {T} (Rank : nat) (value : T) : list T :=
  match Rank with
  | 0 => []
  | S n => value :: make_array n value
  end.

(** [extract_subview(src, lid, bounds)] *)
Definition extract_subview (src : View) (lid : Z) (bounds : Sel)
  : Result View :=
  let Rank := rank src in
  if decide (1 < Rank)
  then subview src (SelIndex lid :: bounds :: make_array (Rank - 2) SelAll)
  else Fail StaticAssert.

(** The index of the parent addressed through a subview at [idx]. *)
Fixpoint parent_index (sels : list Sel) (idx : list nat) : list nat :=
  match sels with
  | [] => []
  | SelIndex i :: sels' => Z.to_nat i :: parent_index sels' idx
  | SelAll :: sels' =>
      match idx with
      | j :: idx' => j :: parent_index sels' idx'
      | [] => []
      end
  | SelRange a _ :: sels' =>
      match idx with
      | j :: idx' => (Z.to_nat a + j) :: parent_index sels' idx'
      | [] => []
      end
  end.


Section Scheduled.
Context {schedule : Schedule}.

(** ** Execution contexts and dispatch *)

(** Modelled from the spec: the team handle a team lambda receives (the
    execution policies are not in the source file).  [team_size] is the
    number of lanes [Kokkos::AUTO] chose for the team. *)
Record TeamMember : Type := mkTeamMember {
  league_rank : Z;
  league_size : Z;
  team_size : nat
}.

(** [parallel_for(team_policy(league, Kokkos::AUTO), body)] *)
Definition parallel_for_team (league : Z) (lanes : nat)
    (body : TeamMember -> M unit) : M unit :=
  parallel_for (Int.range league)
               (fun r => body (mkTeamMember r league lanes)).

(** [parallel_for(RangePolicy(0, n), body)] *)
Definition parallel_for_range (n : Z) (body : Z -> M unit) : M unit :=
  parallel_for (Int.range n) body.

(** [parallel_for(TeamThreadRange(team, count), body)] *)
Definition parallel_for_team_thread (team : TeamMember) (count : Z)
    (body : Z -> M unit) : M unit :=
  parallel_for (Int.range count) body.

(** Modelled from the spec: [Kokkos::clamp(value, lo, hi)] is not in the
    source file; it bounds [value] to the interval from [lo] to [hi]. *)
Definition clamp (value lo hi : Z) : Z :=
  if decide (value < lo)%Z then lo
  else if decide (hi < value)%Z then hi
  else value.

(** ** The local deep-copy primitive *)

Definition shape_compatible (dst src : View) : bool :=
  bool_decide (extents dst = extents src).

Definition copy_element (dst src : View) (i : nat) : M unit :=
  let* x := load (flat_addr src i) in store (flat_addr dst i) x.

Definition fill_element (dst : View) (value : Z) (i : nat) : M unit :=
  store (flat_addr dst i) value.

(** Modelled from the spec: the Element-Space Walk of one unit of work
    (the implementation of the primitive is not in the source file).  It
    visits every flat index of the destination once. *)
Definition element_space_walk (n : nat) (f : nat -> M unit) : M unit :=
  for_each (seq 0 n) f.

(** The flat indices lane [lane] of a team of [lanes] lanes processes. *)
Definition lane_indices (lanes n lane : nat) : list nat :=
  filter (fun i => i mod lanes = lane) (seq 0 n).

(** Modelled from the spec: the team-collaborative walk splits the
    flattened destination index space across the lanes of the team, each
    lane taking a strided subset; the schedule interleaves the work of
    the lanes. *)
Definition team_walk (team : TeamMember) (n : nat) (f : nat -> M unit)
  : M unit :=
  parallel_for
    (seq 0 (team_size team) ≫= lane_indices (team_size team) n) f.

(** Modelled from the spec: the team-wide barrier (not in the source
    file).  With the work of the lanes run one item after the other it
    leaves memory as it is. *)
Definition team_barrier (team : TeamMember) : M unit := ret tt.

(** Modelled from the spec: [local_deep_copy_thread(thread, dst, src)],
    the walk run by the calling thread alone, no barrier.  A shape
    mismatch is a contract violation. *)
Definition local_deep_copy_thread (team : TeamMember) (dst src : View)
  : M unit :=
  if shape_compatible dst src
  then element_space_walk (size dst) (copy_element dst src)
  else fail ContractViolation.

(** Modelled from the spec: [local_deep_copy_thread(thread, dst, value)]. *)
Definition local_deep_copy_thread_scalar (team : TeamMember) (dst : View)
    (value : Z) : M unit :=
  element_space_walk (size dst) (fill_element dst value).

(** Modelled from the spec: [local_deep_copy(team, dst, src)], the walk
    shared by the lanes of the team, then a team barrier. *)
Definition local_deep_copy_team (team : TeamMember) (dst src : View)
  : M unit :=
  if shape_compatible dst src
  then team_walk team (size dst) (copy_element dst src) ;; team_barrier team
  else fail ContractViolation.

(** Modelled from the spec: [local_deep_copy(team, dst, value)]. *)
Definition local_deep_copy_team_scalar (team : TeamMember) (dst : View)
    (value : Z) : M unit :=
  team_walk team (size dst) (fill_element dst value) ;; team_barrier team.

(** Modelled from the spec: [local_deep_copy(dst, src)], the unscoped
    form: one call performs the whole walk, no barrier. *)
Definition local_deep_copy (dst src : View) : M unit :=
  if shape_compatible dst src
  then element_space_walk (size dst) (copy_element dst src)
  else fail ContractViolation.

(** Modelled from the spec: [local_deep_copy(dst, value)]. *)
Definition local_deep_copy_scalar (dst : View) (value : Z) : M unit :=
  element_space_walk (size dst) (fill_element dst value).

(** Modelled from the spec: [Kokkos::deep_copy(view, value)], the
    whole-array facility (not in the source file), assigns [value] to
    every element of a view that fills its span. *)
Definition deep_copy (dst : View) (value : Z) : M unit :=
  parallel_for (seq 0 (span dst)) (fun i => store (data dst + i) value).

(** ** Test helpers *)

(** [view_check_equals(lhs, rhs)]: a logical-and reduction over the span
    of [lhs], starting from 1. *)
Definition view_check_equals (lhs rhs : View) : M bool :=
  parallel_reduce (seq 0 (span lhs))
    (fun i local_result =>
       let* l := load (data lhs + i) in
       let* r := load (data rhs + i) in
       ret (bool_decide (l = r) && local_result))
    true.

(** [view_init(view)] *)
Definition view_init (view : View) : M unit :=
  parallel_for (seq 0 (span view))
               (fun i => store (data view + i) (Z.of_nat i)).

(** [view_create<ViewType>(label, N)]: a fresh zero-initialised
    allocation with [Rank] extents equal to [N]. *)
Definition view_create (L : Layout) (Rank : nat) (N : Z) : M View :=
  fun m =>
    let dimensions := make_array Rank (Z.to_nat N) in
    Ok (mkView (length m) dimensions (layout_strides L dimensions),
        m ++ replicate (size_of dimensions) 0%Z).

(** The chunk arithmetic of [test_local_deepcopy_thread]. *)
Definition unitsOfWork (N thread_number : Z) : Z :=
  let unitsOfWork := Int.div N thread_number in
  if decide (Int.rem N thread_number <> 0%Z)
  then Int.add unitsOfWork 1
  else unitsOfWork.

Definition numberOfBatches (N thread_number : Z) : Z :=
  Int.div N (unitsOfWork N thread_number).

Definition chunk_start (unitsOfWork idx : Z) : Z := Int.mul idx unitsOfWork.

Definition chunk_stop (N unitsOfWork idx : Z) : Z :=
  clamp (Int.mul (Int.add idx 1) unitsOfWork) 0 N.

(** ** class TestLocalDeepCopyRank *)

Definition fill_value : Z := 20.

Section TestLocalDeepCopyRank.
(** The members of the class, and the team size of the dispatches. *)
Variable N : Z.
Variables A B : View.
Variable lanes : nat.

(** The dispatch of [test_local_deepcopy_thread]. *)
Definition copy_by_threads : M unit :=
  parallel_for_team N lanes (fun teamMember =>
    let lid := league_rank teamMember in
    let thread_number := league_size teamMember in
    let unitsOfWork := unitsOfWork N thread_number in
    let numberOfBatches := numberOfBatches N thread_number in
    parallel_for_team_thread teamMember numberOfBatches
      (fun indexWithinBatch =>
         let idx := indexWithinBatch in
         let start := chunk_start unitsOfWork idx in
         let stop := chunk_stop N unitsOfWork idx in
         let* subSrc := lift (extract_subview A lid (SelRange start stop)) in
         let* subDst := lift (extract_subview B lid (SelRange start stop)) in
         local_deep_copy_thread teamMember subDst subSrc)).

Definition test_local_deepcopy_thread : M bool :=
  copy_by_threads ;; view_check_equals A B.

(** The dispatch of [test_local_deepcopy]. *)
Definition copy_by_teams : M unit :=
  parallel_for_team N lanes (fun teamMember =>
    let lid := league_rank teamMember in
    let* subSrc := lift (extract_subview A lid SelAll) in
    let* subDst := lift (extract_subview B lid SelAll) in
    local_deep_copy_team teamMember subDst subSrc).

Definition test_local_deepcopy : M bool :=
  copy_by_teams ;; view_check_equals A B.

(** The dispatch of [test_local_deepcopy_range]. *)
Definition copy_by_range : M unit :=
  parallel_for_range N (fun lid =>
    let* subSrc := lift (extract_subview A lid SelAll) in
    let* subDst := lift (extract_subview B lid SelAll) in
    local_deep_copy subDst subSrc).

Definition test_local_deepcopy_range : M bool :=
  copy_by_range ;; view_check_equals A B.

(** The reduction "Check B". *)
Definition sum_of_B : M Z :=
  parallel_reduce (seq 0 (span B))
    (fun i lsum => let* x := load (data B + i) in ret (lsum + x)%Z) 0%Z.

(** [check_sum()] against the value the slices were filled with;
    [ViewType::rank] is the rank of [B]. *)
Definition check_sum_of (value : Z) : M bool :=
  let* sum_all := sum_of_B in
  let correct_sum :=
    fold_left (fun correct_sum _ => (correct_sum * N)%Z)
              (seq 0 (rank B)) value in
  ret (bool_decide (sum_all = correct_sum)).

Definition check_sum : M bool := check_sum_of fill_value.

(** The dispatch of [test_local_deepcopy_scalar]. *)
Definition fill_by_teams (value : Z) : M unit :=
  parallel_for_team N lanes (fun teamMember =>
    let lid := league_rank teamMember in
    let* subDst := lift (extract_subview B lid SelAll) in
    local_deep_copy_team_scalar teamMember subDst value).

Definition test_local_deepcopy_scalar : M bool :=
  fill_by_teams fill_value ;; check_sum.

(** The dispatch of [test_local_deepcopy_scalar_range]. *)
Definition fill_by_range (value : Z) : M unit :=
  parallel_for_range N (fun lid =>
    let* subDst := lift (extract_subview B lid SelAll) in
    local_deep_copy_scalar subDst value).

Definition test_local_deepcopy_scalar_range : M bool :=
  fill_by_range fill_value ;;
  (let* sum_all := sum_of_B in check_sum).

(** [reset_b()] *)
Definition reset_b : M unit := deep_copy B 0.

(** [run_team_policy()]; the result is the conjunction of the assertions
    of the three tests. *)
Definition run_team_policy : M bool :=
  let* thread_ok := test_local_deepcopy_thread in
  reset_b ;;
  let* team_ok := test_local_deepcopy in
  reset_b ;;
  let* scalar_ok := test_local_deepcopy_scalar in
  ret (thread_ok && team_ok && scalar_ok).

(** [run_range_policy()] *)
Definition run_range_policy : M bool :=
  let* range_ok := test_local_deepcopy_range in
  reset_b ;;
  let* scalar_ok := test_local_deepcopy_scalar_range in
  ret (range_ok && scalar_ok).
End TestLocalDeepCopyRank.

(** The constructor: [A] and [B] are created, [A] is initialised. *)
Definition TestLocalDeepCopyRank (L : Layout) (Rank : nat) (N : Z)
  : M (View * View) :=
  let* A := view_create L Rank N in
  let* B := view_create L Rank N in
  view_init A ;;
  ret (A, B).

(** ** The four tests of the class

    Each [TEST] runs seven blocks, "Rank-1" to "Rank-7", on views of rank
    2 to 8 and extent 8; a block builds its own test object.  Storage is
    not given back at the end of a block: the next block allocates behind
    it. *)
Definition tested_ranks : list nat := [2; 3; 4; 5; 6; 7; 8].

Definition team_policy_block (L : Layout) (Rank lanes : nat) : M bool :=
  let* test := TestLocalDeepCopyRank L Rank 8 in
  run_team_policy 8 test.1 test.2 lanes.

Definition range_policy_block (L : Layout) (Rank : nat) : M bool :=
  let* test := TestLocalDeepCopyRank L Rank 8 in
  run_range_policy 8 test.1 test.2.

Definition local_deepcopy_teampolicy_layoutleft (lanes : nat) : M bool :=
  reduce_each tested_ranks
    (fun Rank ok =>
       let* passed := team_policy_block LayoutLeft Rank lanes in
       ret (ok && passed)) true.

Definition local_deepcopy_rangepolicy_layoutleft : M bool :=
  reduce_each tested_ranks
    (fun Rank ok =>
       let* passed := range_policy_block LayoutLeft Rank in
       ret (ok && passed)) true.

Definition local_deepcopy_teampolicy_layoutright (lanes : nat) : M bool :=
  reduce_each tested_ranks
    (fun Rank ok =>
       let* passed := team_policy_block LayoutRight Rank lanes in
       ret (ok && passed)) true.

Definition local_deepcopy_rangepolicy_layoutright : M bool :=
  reduce_each tested_ranks
    (fun Rank ok =>
       let* passed := range_policy_block LayoutRight Rank in
       ret (ok && passed)) true.

(** ** The scratch test *)

(** Modelled from the spec: the team scratch pad the dispatch provides
    (scratch allocation is not in the source file): [cells] doubles of
    unspecified content, [junk i] here. *)
Definition team_scratch (cells : nat) (junk : nat -> Z) : M nat :=
  fun m => Ok (length m, m ++ (junk <$> seq 0 cells)).

(** [ShMemView<double**>(scratch, n0, n1)]: an unmanaged LayoutRight view
    over the scratch pad. *)
Definition ShMemView (scratch : nat) (n0 n1 : nat) : View :=
  mkView scratch [n0; n1] (layout_strides LayoutRight [n0; n1]).

(** [DeepCopyScratchFunctor::operator()(team)] *)
Definition DeepCopyScratchFunctor (check_view_1_ check_view_2_ : View)
    (N_ : Z) (scratch : nat) (team : TeamMember) : M unit :=
  let shview := ShMemView scratch (Z.to_nat N_) 1 in
  parallel_for_team_thread team N_ (fun index =>
    let* thread_shview := lift (subview shview [SelIndex index; SelAll]) in
    local_deep_copy_scalar thread_shview index) ;;
  (let* column := lift (subview shview [SelAll; SelIndex 0]) in
   local_deep_copy_team team check_view_1_ column) ;;
  local_deep_copy_team_scalar team shview 6 ;;
  (let* column := lift (subview shview [SelAll; SelIndex 0]) in
   local_deep_copy_team team check_view_2_ column).

(** [TEST(deep_copy_scratch)] with [N] lanes of work, up to the end of
    the dispatch; the source fixes [N = 8]. *)
Definition deep_copy_scratch_dispatch (N : Z) (lanes : nat)
    (junk : nat -> Z) : M (View * View) :=
  let* check_view_1 := view_create LayoutRight 1 N in
  let* check_view_2 := view_create LayoutRight 1 N in
  let* scratch := team_scratch (Z.to_nat N * 1) junk in
  parallel_for_team 1 lanes (fun team =>
    DeepCopyScratchFunctor check_view_1 check_view_2
      (Z.of_nat (hd 0 (extents check_view_1))) scratch team) ;;
  ret (check_view_1, check_view_2).

(** The whole test; the result is the conjunction of its assertions.  The
    host mirrors hold what the check views hold and are read through
    them. *)
Definition deep_copy_scratch_with (N : Z) (lanes : nat) (junk : nat -> Z)
  : M bool :=
  let* views := deep_copy_scratch_dispatch N lanes junk in
  let check_view_1 := views.1 in
  let check_view_2 := views.2 in
  reduce_each (seq 0 (Z.to_nat N))
    (fun i ok =>
       let* host_copy_1 := load (elem_addr check_view_1 [i]) in
       let* host_copy_2 := load (elem_addr check_view_2 [i]) in
       ret (bool_decide (host_copy_1 = Z.of_nat i)
            && bool_decide (host_copy_2 = 6%Z) && ok))
    true.

Definition deep_copy_scratch : nat -> (nat -> Z) -> M bool :=
  deep_copy_scratch_with 8.

(** The constructor followed by one test, from the empty memory. *)
Definition run_test (L : Layout) (Rank : nat) (N : Z)
    (test : Z -> View -> View -> M bool) : Result (bool * Mem) :=
  (let* AB := TestLocalDeepCopyRank L Rank N in test N AB.1 AB.2) [].

End Scheduled.

(** ** Specification vocabulary

    [written m0 b n val W m] says that [m] differs from the initial memory
    [m0] at most inside the region [[b, b+n)], and that the cells of the
    region at the relative offsets in [W] hold the values [val]
    prescribes. *)
Definition written (m0 : Mem) (b n : nat) (val : nat -> option Z)
    (W : nat -> Prop) (m : Mem) : Prop :=
  length m = length m0 /\
  (forall x, ~ (b <= x < b + n) -> m !! x = m0 !! x) /\
  (forall r, W r -> r < n -> m !! (b + r) = val r).

(** [c] runs without failing and writes the offsets in [S]. *)
Definition writes (m0 : Mem) (b n : nat) (val : nat -> option Z)
    (c : M unit) (S : nat -> Prop) : Prop :=
  forall W m, written m0 b n val W m ->
    exists m', c m = Ok (tt, m') /\
               written m0 b n val (fun r => W r \/ S r) m'.

(** The [n] cells from address [a] on. *)
Definition region (a n : nat) (m : Mem) : list Z := take n (drop a m).

(** Memory [m] with the cells from address [b] on replaced by [vs]. *)
Definition overwrite (b : nat) (vs : list Z) (m : Mem) : Mem :=
  take b m ++ vs ++ drop (b + length vs) m.

(** The sum of the elements of a list of cells. *)
Definition sum_cells (vs : list Z) : Z := foldr Z.add 0%Z vs.

(** The integers a double holds, adds and multiplies without rounding. *)
Definition exact_double (z : Z) : Prop := (Z.abs z <= 2 ^ 53)%Z.

(** The handle of a dense view of layout [L] and extents [es] whose storage
    begins at address [a]. *)
Definition whole_view (L : Layout) (a : nat) (es : list nat) : View :=
  mkView a es (layout_strides L es).

(** The cells one block of a [TEST] leaves behind: those of [A], holding
    their flat indices, then those of [B], holding [fill_value]. *)
Definition block_memory (Rank : nat) : Mem :=
  let n := size_of (make_array Rank (Z.to_nat 8)) in
  (Z.of_nat <$> seq 0 n) ++ replicate n fill_value.

(** The selector [sel] stays inside a dimension of extent [e]. *)
Definition sel_inside (e : nat) (sel : Sel) : Prop :=
  match sel with
  | SelIndex i => (0 <= i < Z.of_nat e)%Z
  | SelAll => True
  | SelRange a b => (0 <= a <= b /\ b <= Z.of_nat e)%Z
  end.

(** The flat index of an index tuple, first coordinate fastest. *)
Fixpoint flatten (es idx : list nat) : nat :=
  match es, idx with
  | e :: es', i :: idx' => i + e * flatten es' idx'
  | _, _ => 0
  end.

(** Index [j] lies in the chunk of batch [idx] of the decomposition of
    [N] units of work over [T] threads. *)
Definition in_chunk (N T idx j : Z) : Prop :=
  (0 <= idx < numberOfBatches N T /\
   chunk_start (unitsOfWork N T) idx <= j
     < chunk_stop N (unitsOfWork N T) idx)%Z.

Definition chunks_disjoint (N T : Z) : Prop :=
  forall idx1 idx2 j, in_chunk N T idx1 j -> in_chunk N T idx2 j -> idx1 = idx2.

Definition chunks_cover (N T : Z) : Prop :=
  forall j, (0 <= j < N)%Z -> exists idx, in_chunk N T idx j.

(** The offsets of the elements of the chunk of batch [j] of team [lid],
    the range from [j] to [S j] of dimension 1, in a view whose first
    strides are [s] and [s1] and whose extents after the first two are
    [es]. *)
Definition thread_chunk (es : list nat) (s s1 : nat) (ss : list nat)
    (lid j : Z) (r : nat) : Prop :=
  exists idx, in_bounds (S (Z.to_nat j) - Z.to_nat j :: es) idx /\
    r = Z.to_nat lid * s + (Z.to_nat j * s1 + 0) + offset (s1 :: ss) idx.

(** * Properties *)

Section Properties.
Context {schedule : Schedule}.

(** ** The memory monad *)

Lemma bind_ok {A B} (c : M A) (k : A -> M B) m a m' :
  c m = Ok (a, m') -> bind c k m = k a m'.
Proof. intros H. unfold bind. by rewrite H. Qed.

Lemma lift_ok {A B} (r : Result A) (k : A -> M B) a m :
  r = Ok a -> bind (lift r) k m = k a m.
Proof. intros ->. reflexivity. Qed.

Lemma elem_of_sched_1 {I} (l : list I) i : i ∈ sched l -> i ∈ l.
Proof. by rewrite sched_fair. Qed.

Lemma elem_of_sched_2 {I} (l : list I) i : i ∈ l -> i ∈ sched l.
Proof. by rewrite sched_fair. Qed.

Lemma length_sched {I} (l : list I) : length (sched l) = length l.
Proof. apply Permutation_length, sched_fair. Qed.

Lemma sched_singleton {I} (x : I) : sched [x] = [x].
Proof. apply Permutation_singleton_r, sched_fair. Qed.

Lemma load_ok a m v : m !! a = Some v -> load a m = Ok (v, m).
Proof. intros H. unfold load. by rewrite H. Qed.

Lemma store_ok a v m :
  a < length m -> store a v m = Ok (tt, <[a:=v]> m).
Proof. intros H. unfold store. by rewrite decide_True. Qed.

(** ** A logic of writes into one region *)

Section Writes.
Variable m0 : Mem.
Variables b n : nat.
Variable val : nat -> option Z.
Hypothesis region_allocated : b + n <= length m0.

Abbreviation written := (written m0 b n val).
Abbreviation writes := (writes m0 b n val).

Lemma written_init : written (fun _ => False) m0.
Proof. repeat split; intros; tauto. Qed.

Lemma written_weaken (W W' : nat -> Prop) m :
  (forall r, W' r -> W r) -> written W m -> written W' m.
Proof. intros HW (Hl & Ho & Hi). repeat split; auto. Qed.

Lemma writes_weaken c (S S' : nat -> Prop) :
  (forall r, S' r -> S r) -> writes c S -> writes c S'.
Proof.
  intros HS Hc W m Hm. destruct (Hc W m Hm) as (m' & Hrun & Hm').
  exists m'. split; [done|].
  eapply written_weaken; [|exact Hm']. intros r [?|?]; auto.
Qed.

Lemma writes_ret : writes (ret tt) (fun _ => False).
Proof.
  intros W m Hm. exists m. split; [done|].
  eapply written_weaken; [|exact Hm]. simpl. tauto.
Qed.

Lemma writes_store rel v :
  rel < n -> val rel = Some v ->
  writes (store (b + rel) v) (fun r => r = rel).
Proof using region_allocated.
  intros Hrel Hval W m (Hl & Ho & Hi).
  exists (<[b + rel := v]> m). split.
  - apply store_ok. lia.
  - split; [by rewrite length_insert|]. split.
    + intros x Hx. rewrite list_lookup_insert_ne by lia. by apply Ho.
    + intros r Hr Hrn. destruct (decide (r = rel)) as [->|Hne].
      * rewrite list_lookup_insert_eq by lia. done.
      * rewrite list_lookup_insert_ne by lia.
        destruct Hr as [Hr|Hr]; [by apply Hi|done].
Qed.

Lemma writes_seq c1 c2 (S1 S2 : nat -> Prop) :
  writes c1 S1 -> writes c2 S2 ->
  writes (c1 ;; c2) (fun r => S1 r \/ S2 r).
Proof.
  intros H1 H2 W m Hm.
  destruct (H1 W m Hm) as (m1 & Hrun1 & Hm1).
  destruct (H2 _ m1 Hm1) as (m2 & Hrun2 & Hm2).
  exists m2. split.
  - rewrite (bind_ok _ _ _ _ _ Hrun1). exact Hrun2.
  - eapply written_weaken; [|exact Hm2]. simpl. tauto.
Qed.

Lemma writes_lift {A} (r : Result A) (k : A -> M unit) a S :
  r = Ok a -> writes (k a) S -> writes (let* x := lift r in k x) S.
Proof.
  intros Hr Hk W m Hm. rewrite (lift_ok _ _ _ _ Hr). by apply Hk.
Qed.

Lemma writes_for_each {I} (l : list I) (body : I -> M unit)
    (S : I -> nat -> Prop) :
  (forall i, i ∈ l -> writes (body i) (S i)) ->
  writes (for_each l body) (fun r => exists i, i ∈ l /\ S i r).
Proof.
  induction l as [|i l IH]; intros Hbody; simpl.
  - eapply writes_weaken; [|apply writes_ret].
    intros r (i & Hi & _). by apply elem_of_nil in Hi.
  - eapply writes_weaken; [|apply writes_seq].
    2: { apply Hbody, elem_of_cons. by left. }
    2: { apply IH. intros j Hj. apply Hbody, elem_of_cons. by right. }
    intros r (j & Hj & Hr). apply elem_of_cons in Hj as [->|Hj].
    + left. exact Hr.
    + right. exists j. split; [exact Hj|exact Hr].
Qed.

Lemma writes_parallel_for {I} (l : list I) (body : I -> M unit)
    (S : I -> nat -> Prop) :
  (forall i, i ∈ l -> writes (body i) (S i)) ->
  writes (parallel_for l body) (fun r => exists i, i ∈ l /\ S i r).
Proof.
  intros Hbody. unfold parallel_for.
  eapply writes_weaken; [|apply (writes_for_each (sched l) body S)].
  - intros r (i & Hi & Hr). exists i. split; [by apply elem_of_sched_2|done].
  - intros i Hi%elem_of_sched_1. by apply Hbody.
Qed.
End Writes.

(** ** Index spaces and layouts *)

Lemma in_bounds_nil : in_bounds [] [].
Proof. constructor. Qed.

Lemma in_bounds_cons e es i idx :
  in_bounds (e :: es) (i :: idx) <-> i < e /\ in_bounds es idx.
Proof.
  unfold in_bounds. split.
  - intros H. inversion H; subst. done.
  - intros [? ?]. by constructor.
Qed.

Lemma in_bounds_inv_cons e es idx :
  in_bounds (e :: es) idx ->
  exists i idx', idx = i :: idx' /\ i < e /\ in_bounds es idx'.
Proof. intros H. inversion H; subst. eauto. Qed.

Lemma size_of_pos_inv e es r : r < size_of (e :: es) -> 0 < e /\ 0 < size_of es.
Proof. simpl. intros H. split; nia. Qed.

Lemma flatten_bound es idx : in_bounds es idx -> flatten es idx < size_of es.
Proof.
  revert idx. induction es as [|e es IH]; intros idx H.
  - simpl. destruct idx; lia.
  - apply in_bounds_inv_cons in H as (i & idx' & -> & Hi & H).
    specialize (IH _ H). simpl. nia.
Qed.

Lemma unflatten_in_bounds es r :
  r < size_of es -> in_bounds es (unflatten es r).
Proof.
  revert r. induction es as [|e es IH]; intros r Hr; simpl.
  - apply in_bounds_nil.
  - destruct (size_of_pos_inv _ _ _ Hr) as [He Hs]. simpl in Hr.
    apply in_bounds_cons. split.
    + apply Nat.mod_upper_bound. lia.
    + apply IH. apply Nat.Div0.div_lt_upper_bound. lia.
Qed.

Lemma flatten_unflatten es r :
  r < size_of es -> flatten es (unflatten es r) = r.
Proof.
  revert r. induction es as [|e es IH]; intros r Hr; simpl.
  - simpl in Hr. lia.
  - destruct (size_of_pos_inv _ _ _ Hr) as [He Hs]. simpl in Hr.
    rewrite IH by (apply Nat.Div0.div_lt_upper_bound; lia).
    pose proof (Nat.div_mod_eq r e). lia.
Qed.

Lemma unflatten_flatten es idx :
  in_bounds es idx -> unflatten es (flatten es idx) = idx.
Proof.
  revert idx. induction es as [|e es IH]; intros idx H.
  - inversion H. reflexivity.
  - apply in_bounds_inv_cons in H as (i & idx' & -> & Hi & H). simpl.
    assert (Hm : (i + e * flatten es idx') mod e = i).
    { rewrite (Nat.mul_comm e), Nat.Div0.mod_add. by apply Nat.mod_small. }
    assert (Hd : (i + e * flatten es idx') / e = flatten es idx').
    { rewrite (Nat.mul_comm e), Nat.div_add by lia.
      rewrite Nat.div_small by lia. lia. }
    rewrite Hm, Hd, IH by done. reflexivity.
Qed.

Lemma offset_strides_left s es idx :
  offset (strides_left s es) idx = s * flatten es idx.
Proof.
  revert s idx. induction es as [|e es IH]; intros s idx; simpl.
  - lia.
  - destruct idx as [|i idx]; [lia|]. rewrite IH. lia.
Qed.

Lemma length_layout_strides L es : length (layout_strides L es) = length es.
Proof.
  destruct L; simpl.
  - generalize 1. induction es as [|e es IH]; intros s; simpl; [done|].
    by rewrite IH.
  - induction es as [|e es IH]; simpl; [done|]. by rewrite IH.
Qed.

(** The offset of an index tuple inside the extents stays inside the
    allocation. *)
Lemma layout_bound L es idx :
  in_bounds es idx -> offset (layout_strides L es) idx < size_of es.
Proof.
  destruct L; simpl.
  - intros H. rewrite offset_strides_left. apply flatten_bound in H. lia.
  - revert idx. induction es as [|e es IH]; intros idx H.
    + simpl. lia.
    + apply in_bounds_inv_cons in H as (i & idx' & -> & Hi & H).
      specialize (IH _ H). simpl. nia.
Qed.

(** Every cell of the allocation is the image of an index tuple. *)
Lemma layout_surj L es r :
  r < size_of es ->
  exists idx, in_bounds es idx /\ offset (layout_strides L es) idx = r.
Proof.
  destruct L; simpl.
  - intros Hr. exists (unflatten es r). split.
    + by apply unflatten_in_bounds.
    + rewrite offset_strides_left, flatten_unflatten by done. lia.
  - revert r. induction es as [|e es IH]; intros r Hr.
    + exists []. split; [apply in_bounds_nil|]. simpl in *. lia.
    + destruct (size_of_pos_inv _ _ _ Hr) as [He Hs]. simpl in Hr.
      destruct (IH (r mod size_of es)) as (idx & Hb & Ho).
      { apply Nat.mod_upper_bound. lia. }
      exists (r / size_of es :: idx). split.
      * apply in_bounds_cons. split; [|done].
        apply Nat.Div0.div_lt_upper_bound. lia.
      * simpl. rewrite Ho. pose proof (Nat.div_mod_eq r (size_of es)). lia.
Qed.

(** Distinct index tuples have distinct offsets. *)
Lemma layout_inj L es idx1 idx2 :
  in_bounds es idx1 -> in_bounds es idx2 ->
  offset (layout_strides L es) idx1 = offset (layout_strides L es) idx2 ->
  idx1 = idx2.
Proof.
  destruct L; simpl.
  - intros H1 H2. rewrite !offset_strides_left. intros Heq.
    rewrite <- (unflatten_flatten es idx1), <- (unflatten_flatten es idx2)
      by done.
    f_equal. lia.
  - revert idx1 idx2. induction es as [|e es IH]; intros idx1 idx2 H1 H2.
    + inversion H1; inversion H2; done.
    + apply in_bounds_inv_cons in H1 as (i1 & idx1' & -> & Hi1 & H1).
      apply in_bounds_inv_cons in H2 as (i2 & idx2' & -> & Hi2 & H2).
      simpl. intros Heq.
      pose proof (layout_bound LayoutRight es _ H1) as Hb1.
      pose proof (layout_bound LayoutRight es _ H2) as Hb2.
      simpl in Hb1, Hb2.
      assert (i1 = i2) as -> by nia.
      f_equal. apply IH; [done..|lia].
Qed.

(** ** Subviews alias their parent *)

Lemma length_make_array {T} n (x : T) : length (make_array n x) = n.
Proof. induction n; simpl; congruence. Qed.

Lemma parent_index_all n idx :
  length idx = n -> parent_index (make_array n SelAll) idx = idx.
Proof.
  revert idx. induction n as [|n IH]; intros [|i idx] H; simpl in *; try done.
  rewrite IH by lia. reflexivity.
Qed.

Lemma in_bounds_length es idx : in_bounds es idx -> length idx = length es.
Proof. apply Forall2_length. Qed.

Lemma subview_map_all es ss :
  length ss = length es ->
  subview_map es ss (make_array (length es) SelAll) = Ok (0, es, ss).
Proof.
  revert ss. induction es as [|e es IH]; intros [|s ss] H; simpl in *;
    try done.
  rewrite IH by lia. reflexivity.
Qed.

(** Whatever the selectors, an element of the subview is the element of
    the parent at [parent_index]. *)
Lemma subview_map_alias es ss sels off es2 ss2 :
  subview_map es ss sels = Ok (off, es2, ss2) ->
  forall idx, in_bounds es2 idx ->
    in_bounds es (parent_index sels idx) /\
    off + offset ss2 idx = offset ss (parent_index sels idx).
Proof.
  revert ss sels off es2 ss2.
  induction es as [|e es IH]; intros [|s ss] [|sel sels] off es2 ss2;
    simpl; try done.
  - intros [= <- <- <-] idx Hidx. inversion Hidx; subst. split; [constructor|done].
  - destruct (subview_map es ss sels) as [[[off' es2'] ss2']|] eqn:Hrec;
      simpl; [|done].
    specialize (IH _ _ _ _ _ Hrec).
    destruct sel as [i| |a b'].
    + case_decide; [|done]. intros [= <- <- <-] idx Hidx.
      destruct (IH idx Hidx) as [Hb Ho]. split.
      * apply in_bounds_cons. split; [lia|done].
      * simpl. lia.
    + intros [= <- <- <-] idx Hidx.
      apply in_bounds_inv_cons in Hidx as (j & idx' & -> & Hj & Hidx).
      destruct (IH idx' Hidx) as [Hb Ho]. split.
      * apply in_bounds_cons. done.
      * simpl. lia.
    + case_decide; [|done]. intros [= <- <- <-] idx Hidx.
      apply in_bounds_inv_cons in Hidx as (j & idx' & -> & Hj & Hidx).
      destruct (IH idx' Hidx) as [Hb Ho]. split.
      * apply in_bounds_cons. split; [lia|done].
      * simpl. lia.
Qed.

Lemma subview_alias v sels sv :
  subview v sels = Ok sv ->
  forall idx, in_bounds (extents sv) idx ->
    in_bounds (extents v) (parent_index sels idx) /\
    elem_addr sv idx = elem_addr v (parent_index sels idx).
Proof.
  unfold subview.
  destruct (subview_map (extents v) (strides v) sels)
    as [[[off es2] ss2]|] eqn:Hmap; simpl; [|done].
  intros [= <-] idx Hidx. simpl in *.
  destruct (subview_map_alias _ _ _ _ _ _ Hmap idx Hidx) as [Hb Ho].
  split; [done|]. unfold elem_addr. simpl. lia.
Qed.

(** The slice [lid] of a view of rank at least 2. *)
Lemma extract_subview_all d e es s ss (lid : nat) :
  length ss = length es -> es <> [] -> lid < e ->
  extract_subview (mkView d (e :: es) (s :: ss)) (Z.of_nat lid) SelAll
  = Ok (mkView (d + (lid * s + 0)) es ss).
Proof.
  intros Hlen Hne Hlid.
  destruct es as [|e1 es]; [done|]. destruct ss as [|s1 ss]; [done|].
  unfold extract_subview, rank. cbn [extents length].
  rewrite decide_True by lia.
  replace (S (S (length es)) - 2) with (length es) by lia.
  unfold subview. cbn [extents strides data make_array subview_map].
  rewrite subview_map_all by (simpl in Hlen; lia).
  cbn [rbind]. rewrite decide_True by lia. rewrite Nat2Z.id. reflexivity.
Qed.

(** The chunk [[start, stop)] of the slice [lid]. *)
Lemma extract_subview_range d e e1 es s s1 ss (lid start stop : nat) :
  length ss = length es -> lid < e -> start <= stop <= e1 ->
  extract_subview (mkView d (e :: e1 :: es) (s :: s1 :: ss)) (Z.of_nat lid)
                  (SelRange (Z.of_nat start) (Z.of_nat stop))
  = Ok (mkView (d + (lid * s + (start * s1 + 0))) (stop - start :: es)
               (s1 :: ss)).
Proof.
  intros Hlen Hlid Hr.
  unfold extract_subview, rank. cbn [extents length].
  rewrite decide_True by lia.
  replace (S (S (length es)) - 2) with (length es) by lia.
  unfold subview. cbn [extents strides data make_array subview_map].
  rewrite subview_map_all by lia.
  cbn [rbind]. rewrite decide_True by lia.
  cbn [rbind]. rewrite decide_True by lia.
  rewrite <- Nat2Z.inj_sub by lia. rewrite !Nat2Z.id. reflexivity.
Qed.

(** ** The walks write every element once per flat index *)

Lemma lane_indices_cover lanes k i :
  0 < lanes -> i < k ->
  i mod lanes ∈ seq 0 lanes /\ i ∈ lane_indices lanes k (i mod lanes).
Proof.
  intros Hl Hi. split.
  - apply elem_of_seq. pose proof (Nat.mod_upper_bound i lanes). lia.
  - unfold lane_indices. apply list_elem_of_filter. split; [done|].
    apply elem_of_seq. lia.
Qed.

Lemma lane_indices_bound lanes k lane i :
  i ∈ lane_indices lanes k lane -> i < k.
Proof.
  unfold lane_indices. intros [_ H%elem_of_seq]%list_elem_of_filter. lia.
Qed.

(** The work of the lanes of a team is the flat index space, every index
    once. *)
Lemma team_work_partition lanes k :
  0 < lanes -> seq 0 lanes ≫= lane_indices lanes k ≡ₚ seq 0 k.
Proof.
  intros Hl. apply NoDup_Permutation.
  - apply NoDup_bind; [| |apply NoDup_seq].
    + unfold lane_indices.
      intros l1 l2 i _ _ [H1 _]%list_elem_of_filter [H2 _]%list_elem_of_filter.
      congruence.
    + intros lane _. apply NoDup_filter, NoDup_seq.
  - apply NoDup_seq.
  - intros i. rewrite list_elem_of_bind, elem_of_seq. split.
    + intros (lane & Hi%lane_indices_bound & _). lia.
    + intros Hi. exists (i mod lanes).
      destruct (lane_indices_cover lanes k i) as [? ?]; [done|lia|done].
Qed.

Section Walks.
Variable m0 : Mem.
Variables b n : nat.
Variable val : nat -> option Z.

Abbreviation writes := (writes m0 b n val).

Variable k : nat.
Variable f : nat -> M unit.
Variable rel : nat -> nat.
Hypothesis f_writes : forall i, i < k -> writes (f i) (fun r => r = rel i).

Lemma writes_element_space_walk :
  writes (element_space_walk k f) (fun r => exists i, i < k /\ r = rel i).
Proof using f_writes.
  unfold element_space_walk.
  eapply writes_weaken; [|apply writes_for_each].
  2: { intros i Hi%elem_of_seq. apply f_writes. lia. }
  intros r (i & Hi & ->). exists i. split; [|done]. apply elem_of_seq. lia.
Qed.

Lemma writes_team_walk team :
  0 < team_size team ->
  writes (team_walk team k f ;; team_barrier team)
         (fun r => exists i, i < k /\ r = rel i).
Proof using f_writes.
  intros Hts. unfold team_walk, team_barrier.
  eapply writes_weaken; [|apply writes_seq; [|apply writes_ret]].
  2: { apply writes_parallel_for with (S := fun i r => r = rel i).
       intros i (lane & Hi & _)%list_elem_of_bind.
       apply f_writes. by eapply lane_indices_bound. }
  intros r (i & Hi & ->). left.
  destruct (lane_indices_cover (team_size team) k i) as [Hlane Hin];
    [done..|].
  exists i. split; [|done]. apply list_elem_of_bind.
  by exists (i mod team_size team).
Qed.
End Walks.

(** Filling a view laid out inside the region. *)
Section Fills.
Variable m0 : Mem.
Variables b n : nat.
Variable val : nat -> option Z.
Variable value : Z.
Hypothesis region_allocated : b + n <= length m0.

Abbreviation writes := (writes m0 b n val).

Variable d : nat.
Variables es2 ss2 : list nat.
Hypothesis inside : forall idx, in_bounds es2 idx -> d + offset ss2 idx < n.
Hypothesis expected :
  forall idx, in_bounds es2 idx -> val (d + offset ss2 idx) = Some value.

Let dst := mkView (b + d) es2 ss2.
Let slice (r : nat) : Prop :=
  exists idx, in_bounds es2 idx /\ r = d + offset ss2 idx.

Lemma writes_fill_element i :
  i < size_of es2 ->
  writes (fill_element dst value i)
         (fun r => r = d + offset ss2 (unflatten es2 i)).
Proof using region_allocated inside expected.
  intros Hi. unfold fill_element, flat_addr, elem_addr. simpl.
  rewrite <- Nat.add_assoc. apply writes_store; [done| |].
  - apply inside. by apply unflatten_in_bounds.
  - apply expected. by apply unflatten_in_bounds.
Qed.

Lemma slice_walked r :
  slice r ->
  exists i, i < size_of es2 /\ r = d + offset ss2 (unflatten es2 i).
Proof.
  intros (idx & Hidx & ->). exists (flatten es2 idx). split.
  - by apply flatten_bound.
  - by rewrite unflatten_flatten.
Qed.

Lemma writes_local_deep_copy_scalar :
  writes (local_deep_copy_scalar dst value) slice.
Proof using region_allocated inside expected.
  unfold local_deep_copy_scalar, size.
  eapply writes_weaken; [apply slice_walked|].
  apply writes_element_space_walk. apply writes_fill_element.
Qed.

Lemma writes_local_deep_copy_thread_scalar team :
  writes (local_deep_copy_thread_scalar team dst value) slice.
Proof using region_allocated inside expected.
  apply writes_local_deep_copy_scalar.
Qed.

Lemma writes_local_deep_copy_team_scalar team :
  0 < team_size team ->
  writes (local_deep_copy_team_scalar team dst value) slice.
Proof using region_allocated inside expected.
  intros Hts. unfold local_deep_copy_team_scalar, size.
  eapply writes_weaken; [apply slice_walked|].
  apply writes_team_walk; [|done]. apply writes_fill_element.
Qed.
End Fills.

(** Copying between two views laid out alike inside two disjoint
    regions [[a, a+n)] and [[b, b+n)]. *)
Section Copies.
Variable m0 : Mem.
Variables a b n : nat.
Hypothesis source_allocated : a + n <= length m0.
Hypothesis region_allocated : b + n <= length m0.
Hypothesis disjoint : a + n <= b \/ b + n <= a.

Abbreviation writes := (writes m0 b n (fun r => m0 !! (a + r))).

Variable d : nat.
Variables es2 ss2 : list nat.
Hypothesis inside : forall idx, in_bounds es2 idx -> d + offset ss2 idx < n.

Let dst := mkView (b + d) es2 ss2.
Let src := mkView (a + d) es2 ss2.
Let slice (r : nat) : Prop :=
  exists idx, in_bounds es2 idx /\ r = d + offset ss2 idx.

Lemma writes_copy_element i :
  i < size_of es2 ->
  writes (copy_element dst src i)
         (fun r => r = d + offset ss2 (unflatten es2 i)).
Proof using source_allocated region_allocated disjoint inside.
  intros Hi. unfold copy_element, flat_addr, elem_addr. simpl.
  pose proof (inside _ (unflatten_in_bounds _ _ Hi)) as Hin.
  set (r := d + offset ss2 (unflatten es2 i)) in *.
  rewrite <- !Nat.add_assoc. fold r.
  destruct (lookup_lt_is_Some_2 m0 (a + r)) as [v Hv]; [lia|].
  intros W m Hm.
  assert (Hload : load (a + r) m = Ok (v, m)).
  { apply load_ok. destruct Hm as (_ & Ho & _). rewrite Ho by lia. done. }
  rewrite (bind_ok _ _ _ _ _ Hload).
  by apply writes_store.
Qed.

Lemma shape_compatible_refl : shape_compatible dst src = true.
Proof. unfold shape_compatible. by apply bool_decide_eq_true. Qed.

Lemma writes_local_deep_copy :
  writes (local_deep_copy dst src) slice.
Proof using source_allocated region_allocated disjoint inside.
  unfold local_deep_copy, size. rewrite shape_compatible_refl.
  eapply writes_weaken; [apply (slice_walked d es2 ss2)|].
  apply writes_element_space_walk. apply writes_copy_element.
Qed.

Lemma writes_local_deep_copy_thread team :
  writes (local_deep_copy_thread team dst src) slice.
Proof using source_allocated region_allocated disjoint inside.
  apply writes_local_deep_copy.
Qed.

Lemma writes_local_deep_copy_team team :
  0 < team_size team ->
  writes (local_deep_copy_team team dst src) slice.
Proof using source_allocated region_allocated disjoint inside.
  intros Hts. unfold local_deep_copy_team, size.
  rewrite shape_compatible_refl.
  eapply writes_weaken; [apply (slice_walked d es2 ss2)|].
  apply writes_team_walk; [|done]. apply writes_copy_element.
Qed.
End Copies.

(** The same, for view handles whose data pointers are given by value. *)
Lemma writes_local_deep_copy_team_at m0 a b n d es2 ss2 team bd ad :
  bd = b + d -> ad = a + d ->
  a + n <= length m0 -> b + n <= length m0 -> a + n <= b \/ b + n <= a ->
  (forall idx, in_bounds es2 idx -> d + offset ss2 idx < n) ->
  0 < team_size team ->
  writes m0 b n (fun r => m0 !! (a + r))
    (local_deep_copy_team team (mkView bd es2 ss2) (mkView ad es2 ss2))
    (fun r => exists idx, in_bounds es2 idx /\ r = d + offset ss2 idx).
Proof. intros -> -> ? ? ? ? ?. by apply writes_local_deep_copy_team. Qed.

Lemma writes_local_deep_copy_team_scalar_at m0 b n val value d es2 ss2
    team bd :
  bd = b + d -> b + n <= length m0 ->
  (forall idx, in_bounds es2 idx -> d + offset ss2 idx < n) ->
  (forall idx, in_bounds es2 idx -> val (d + offset ss2 idx) = Some value) ->
  0 < team_size team ->
  writes m0 b n val
    (local_deep_copy_team_scalar team (mkView bd es2 ss2) value)
    (fun r => exists idx, in_bounds es2 idx /\ r = d + offset ss2 idx).
Proof.
  intros -> ? ? ? ?. by apply writes_local_deep_copy_team_scalar.
Qed.

(** ** The chunk arithmetic of the thread-scoped test *)

Local Open Scope Z_scope.

Lemma wrap_in_range z : Int.in_range z -> Int.wrap z = z.
Proof.
  unfold Int.in_range, Int.min_int, Int.max_int, Int.wrap. intros H.
  rewrite Z.mod_small by lia. lia.
Qed.

Lemma elem_of_range n z :
  z ∈ Int.range n <-> exists k : nat, z = Z.of_nat k /\ (k < Z.to_nat n)%nat.
Proof.
  unfold Int.range. rewrite list_elem_of_fmap. split.
  - intros (k & -> & Hk%elem_of_seq). exists k. split; [done|lia].
  - intros (k & -> & Hk). exists k. split; [done|]. apply elem_of_seq. lia.
Qed.

Section Chunks.
Variables N T : Z.
Hypothesis N_int : 1 <= N <= Int.max_int.
Hypothesis T_int : 1 <= T <= Int.max_int.

Abbreviation u := (unitsOfWork N T).
Abbreviation batches := (numberOfBatches N T).

Lemma max_int_eq : Int.max_int = 2147483647.
Proof. reflexivity. Qed.

Lemma min_int_eq : Int.min_int = -2147483648.
Proof. reflexivity. Qed.

(** No operation of the chunk arithmetic overflows. *)
Lemma unitsOfWork_eq :
  u = N ÷ T + (if decide (Z.rem N T <> 0) then 1 else 0).
Proof using N_int T_int.
  unfold unitsOfWork, Int.rem, Int.div, Int.add.
  pose proof max_int_eq. pose proof min_int_eq.
  rewrite Z.quot_div_nonneg, Z.rem_mod_nonneg by lia.
  assert (0 <= N / T <= N).
  { split; [apply Z.div_pos; lia|]. apply Z.div_le_upper_bound; nia. }
  assert (N mod T <> 0 -> N / T < N).
  { intros Hm. apply Z.div_lt_upper_bound; [lia|].
    destruct (decide (T = 1)) as [->|]; [|nia]. rewrite Z.mod_1_r in Hm. lia. }
  rewrite (wrap_in_range (N / T)) by (unfold Int.in_range; lia).
  case_decide; [|lia].
  apply wrap_in_range. unfold Int.in_range. lia.
Qed.

Lemma unitsOfWork_range : 1 <= u <= N.
Proof using N_int T_int.
  rewrite unitsOfWork_eq.
  rewrite Z.quot_div_nonneg, Z.rem_mod_nonneg by lia.
  pose proof (Z.div_mod N T ltac:(lia)) as Hdm.
  pose proof (Z.mod_pos_bound N T ltac:(lia)) as Hmod.
  assert (0 <= N / T) by (apply Z.div_pos; lia).
  assert (N / T <= N) by (apply Z.div_le_upper_bound; nia).
  case_decide as Hm.
  - split; [lia|].
    destruct (decide (T = 1)) as [->|]; [rewrite Z.mod_1_r in Hm; lia|]. nia.
  - assert (N mod T = 0) by lia. split; [nia|lia].
Qed.

Lemma numberOfBatches_eq : batches = N ÷ u.
Proof using N_int T_int.
  unfold numberOfBatches, Int.div.
  pose proof unitsOfWork_range. pose proof max_int_eq. pose proof min_int_eq.
  apply wrap_in_range. unfold Int.in_range.
  rewrite Z.quot_div_nonneg by lia.
  assert (0 <= N / u) by (apply Z.div_pos; lia).
  assert (N / u <= N) by (apply Z.div_le_upper_bound; nia).
  lia.
Qed.

Lemma numberOfBatches_range : 1 <= batches /\ batches * u <= N.
Proof using N_int T_int.
  rewrite numberOfBatches_eq. pose proof unitsOfWork_range.
  rewrite Z.quot_div_nonneg by lia.
  pose proof (Z.div_mod N u ltac:(lia)).
  pose proof (Z.mod_pos_bound N u ltac:(lia)).
  split; [|nia]. apply Z.div_le_lower_bound; lia.
Qed.

Lemma chunk_start_eq idx : 0 <= idx < batches -> chunk_start u idx = idx * u.
Proof using N_int T_int.
  intros Hidx. unfold chunk_start, Int.mul.
  pose proof unitsOfWork_range. pose proof numberOfBatches_range.
  pose proof max_int_eq. pose proof min_int_eq.
  apply wrap_in_range. unfold Int.in_range. nia.
Qed.

Lemma chunk_stop_eq idx :
  0 <= idx < batches -> chunk_stop N u idx = (idx + 1) * u.
Proof using N_int T_int.
  intros Hidx. unfold chunk_stop, Int.mul, Int.add, clamp.
  pose proof unitsOfWork_range. pose proof numberOfBatches_range.
  pose proof max_int_eq. pose proof min_int_eq.
  rewrite (wrap_in_range (idx + 1)) by (unfold Int.in_range; nia).
  rewrite wrap_in_range by (unfold Int.in_range; nia).
  rewrite decide_False by nia. rewrite decide_False by nia. reflexivity.
Qed.
End Chunks.

Local Close Scope Z_scope.

(** ** Slices of a whole view *)

Lemma layout_strides_cons L e es :
  exists s ss, layout_strides L (e :: es) = s :: ss /\ length ss = length es.
Proof.
  pose proof (length_layout_strides L (e :: es)) as H.
  destruct (layout_strides L (e :: es)) as [|s ss]; simpl in H; [done|].
  exists s, ss. split; [done|lia].
Qed.

Lemma offset_cons s ss i idx :
  offset (s :: ss) (i :: idx) = i * s + offset ss idx.
Proof. reflexivity. Qed.

Section Slices.
Variable L : Layout.
Variables e e1 : nat.
Variable es : list nat.
Variables s s1 : nat.
Variable ss : list nat.
Hypothesis strides_eq : layout_strides L (e :: e1 :: es) = s :: s1 :: ss.

Lemma slice_inside lid idx :
  lid < e -> in_bounds (e1 :: es) idx ->
  lid * s + 0 + offset (s1 :: ss) idx < size_of (e :: e1 :: es).
Proof using strides_eq.
  intros Hlid Hidx.
  pose proof (layout_bound L (e :: e1 :: es) (lid :: idx)) as H.
  rewrite strides_eq, offset_cons in H.
  rewrite Nat.add_0_r. apply H. by apply in_bounds_cons.
Qed.

Lemma slice_cover r :
  r < size_of (e :: e1 :: es) ->
  exists lid idx, lid < e /\ in_bounds (e1 :: es) idx /\
                  r = lid * s + 0 + offset (s1 :: ss) idx.
Proof using strides_eq.
  intros Hr. destruct (layout_surj L _ _ Hr) as (pidx & Hb & Ho).
  rewrite strides_eq in Ho.
  apply in_bounds_inv_cons in Hb as (lid & idx & -> & Hlid & Hidx).
  exists lid, idx. rewrite offset_cons in Ho. repeat split; [done..|lia].
Qed.

Lemma chunk_inside lid start stop idx :
  lid < e -> start <= stop <= e1 -> in_bounds (stop - start :: es) idx ->
  lid * s + (start * s1 + 0) + offset (s1 :: ss) idx
  < size_of (e :: e1 :: es).
Proof using strides_eq.
  intros Hlid Hr Hidx.
  apply in_bounds_inv_cons in Hidx as (i0 & idx' & -> & Hi0 & Hidx).
  pose proof (layout_bound L (e :: e1 :: es) (lid :: start + i0 :: idx')) as H.
  rewrite strides_eq, !offset_cons in H. rewrite offset_cons.
  assert (in_bounds (e :: e1 :: es) (lid :: start + i0 :: idx')) as Hb.
  { apply in_bounds_cons. split; [done|].
    apply in_bounds_cons. split; [lia|done]. }
  specialize (H Hb). lia.
Qed.

Lemma chunk_cover r :
  r < size_of (e :: e1 :: es) ->
  exists lid j idx, lid < e /\ j < e1 /\ in_bounds (S j - j :: es) idx /\
                    r = lid * s + (j * s1 + 0) + offset (s1 :: ss) idx.
Proof using strides_eq.
  intros Hr. destruct (layout_surj L _ _ Hr) as (pidx & Hb & Ho).
  rewrite strides_eq in Ho.
  apply in_bounds_inv_cons in Hb as (lid & idx & -> & Hlid & Hidx).
  apply in_bounds_inv_cons in Hidx as (j & idx' & -> & Hj & Hidx).
  exists lid, j, (0 :: idx'). rewrite !offset_cons in Ho. rewrite offset_cons.
  repeat split; [done..| |lia].
  apply in_bounds_cons. split; [lia|done].
Qed.
End Slices.

(** ** The dispatches of the tests write the whole of [B] *)

Section Dispatches.
Variable L : Layout.
Variable N : Z.
Variable e1 : nat.
Variable es : list nat.
Variables a b : nat.
Variable m0 : Mem.
Variable lanes : nat.

Abbreviation ext := (Z.to_nat N :: e1 :: es).
Abbreviation n := (size_of ext).
Abbreviation A := (mkView a ext (layout_strides L ext)).
Abbreviation B := (mkView b ext (layout_strides L ext)).

Hypothesis A_allocated : a + n <= length m0.
Hypothesis B_allocated : b + n <= length m0.
Hypothesis disjoint : a + n <= b \/ b + n <= a.

Abbreviation copies := (writes m0 b n (fun r => m0 !! (a + r))).
Abbreviation fills value := (writes m0 b n (fun _ => Some value)).

(** A dispatch with one iteration per slice writes the whole region as
    soon as each iteration writes its slice. *)
Lemma writes_slices val (body : Z -> M unit) s s1 ss :
  layout_strides L ext = s :: s1 :: ss ->
  (forall lid, lid < Z.to_nat N ->
     writes m0 b n val (body (Z.of_nat lid))
       (fun r => exists idx, in_bounds (e1 :: es) idx /\
                             r = lid * s + 0 + offset (s1 :: ss) idx)) ->
  writes m0 b n val (parallel_for (Int.range N) body) (fun r => r < n).
Proof.
  intros Hss Hbody.
  eapply writes_weaken; [|apply writes_parallel_for with
    (S := fun lid r => exists idx, in_bounds (e1 :: es) idx /\
            r = Z.to_nat lid * s + 0 + offset (s1 :: ss) idx)].
  - intros r Hr. destruct (slice_cover L _ _ _ _ _ _ Hss r Hr)
      as (lid & idx & Hlid & Hidx & ->).
    exists (Z.of_nat lid). split; [apply elem_of_range; eauto|].
    exists idx. by rewrite Nat2Z.id.
  - intros z (lid & -> & Hlid)%elem_of_range. rewrite Nat2Z.id.
    by apply Hbody.
Qed.

(** Name the strides of the first two dimensions of the whole views. *)
Ltac first_strides s s1 ss Hss Hlen :=
  destruct (layout_strides_cons L (Z.to_nat N) (e1 :: es))
    as (s & [|s1 ss] & Hss & Hlen); [done|];
  simpl in Hlen; rewrite Hss.

Lemma writes_copy_by_teams :
  0 < lanes -> copies (copy_by_teams N A B lanes) (fun r => r < n).
Proof using A_allocated B_allocated disjoint.
  intros Hlanes. first_strides s s1 ss Hss Hlen.
  apply (writes_slices _ _ _ _ _ Hss). intros lid Hlid. cbn [league_rank].
  eapply writes_lift; [by apply extract_subview_all|].
  eapply writes_lift; [by apply extract_subview_all|].
  apply writes_local_deep_copy_team; [done..| |done].
  intros idx Hidx. by eapply slice_inside.
Qed.

Lemma writes_copy_by_range :
  copies (copy_by_range N A B) (fun r => r < n).
Proof using A_allocated B_allocated disjoint.
  first_strides s s1 ss Hss Hlen.
  apply (writes_slices _ _ _ _ _ Hss). intros lid Hlid.
  eapply writes_lift; [by apply extract_subview_all|].
  eapply writes_lift; [by apply extract_subview_all|].
  apply writes_local_deep_copy; [done..|].
  intros idx Hidx. by eapply slice_inside.
Qed.

Lemma writes_fill_by_teams value :
  0 < lanes -> fills value (fill_by_teams N B lanes value) (fun r => r < n).
Proof using B_allocated.
  intros Hlanes. first_strides s s1 ss Hss Hlen.
  apply (writes_slices _ _ _ _ _ Hss). intros lid Hlid. cbn [league_rank].
  eapply writes_lift; [by apply extract_subview_all|].
  apply writes_local_deep_copy_team_scalar; [done| |done|done].
  intros idx Hidx. by eapply slice_inside.
Qed.

Lemma writes_fill_by_range value :
  fills value (fill_by_range N B value) (fun r => r < n).
Proof using B_allocated.
  first_strides s s1 ss Hss Hlen.
  apply (writes_slices _ _ _ _ _ Hss). intros lid Hlid.
  eapply writes_lift; [by apply extract_subview_all|].
  apply writes_local_deep_copy_scalar; [done| |done].
  intros idx Hidx. by eapply slice_inside.
Qed.
End Dispatches.

(** With as many threads as units of work, every chunk is one unit. *)
Section ChunksOfTheTest.
Local Open Scope Z_scope.
Variable N : Z.
Hypothesis N_int : 1 <= N <= Int.max_int.

Lemma unitsOfWork_self : unitsOfWork N N = 1.
Proof using N_int.
  rewrite unitsOfWork_eq by done.
  rewrite Z.quot_same, Z.rem_same by lia.
  by rewrite decide_False by lia.
Qed.

Lemma numberOfBatches_self : numberOfBatches N N = N.
Proof using N_int.
  rewrite numberOfBatches_eq, unitsOfWork_self by done. apply Z.quot_1_r.
Qed.

Lemma chunk_start_self idx :
  0 <= idx < N -> chunk_start (unitsOfWork N N) idx = idx.
Proof using N_int.
  intros H. rewrite chunk_start_eq by (rewrite ?numberOfBatches_self; done).
  rewrite unitsOfWork_self. lia.
Qed.

Lemma chunk_stop_self idx :
  0 <= idx < N -> chunk_stop N (unitsOfWork N N) idx = idx + 1.
Proof using N_int.
  intros H. rewrite chunk_stop_eq by (rewrite ?numberOfBatches_self; done).
  rewrite unitsOfWork_self. lia.
Qed.
End ChunksOfTheTest.

Section ThreadDispatch.
Variable L : Layout.
Variable N : Z.
Variable es : list nat.
Variables a b : nat.
Variable m0 : Mem.
Variable lanes : nat.

Abbreviation ext := (Z.to_nat N :: Z.to_nat N :: es).
Abbreviation n := (size_of ext).
Abbreviation A := (mkView a ext (layout_strides L ext)).
Abbreviation B := (mkView b ext (layout_strides L ext)).

Hypothesis N_int : (1 <= N <= Int.max_int)%Z.
Hypothesis A_allocated : a + n <= length m0.
Hypothesis B_allocated : b + n <= length m0.
Hypothesis disjoint : a + n <= b \/ b + n <= a.

Abbreviation copies := (writes m0 b n (fun r => m0 !! (a + r))).

Lemma writes_thread_call s s1 ss (lid j : nat) team :
  layout_strides L ext = s :: s1 :: ss ->
  lid < Z.to_nat N -> j < Z.to_nat N ->
  copies
    (let* subSrc := lift (extract_subview (mkView a ext (s :: s1 :: ss))
        (Z.of_nat lid)
        (SelRange (chunk_start (unitsOfWork N N) (Z.of_nat j))
                  (chunk_stop N (unitsOfWork N N) (Z.of_nat j)))) in
     let* subDst := lift (extract_subview (mkView b ext (s :: s1 :: ss))
        (Z.of_nat lid)
        (SelRange (chunk_start (unitsOfWork N N) (Z.of_nat j))
                  (chunk_stop N (unitsOfWork N N) (Z.of_nat j)))) in
     local_deep_copy_thread team subDst subSrc)
    (thread_chunk es s s1 ss (Z.of_nat lid) (Z.of_nat j)).
Proof using N_int A_allocated B_allocated disjoint.
  intros Hss Hlid Hj.
  assert (length ss = length es) as Hlen.
  { pose proof (length_layout_strides L ext) as H. rewrite Hss in H.
    simpl in H. lia. }
  rewrite chunk_start_self, chunk_stop_self by lia.
  replace (Z.of_nat j + 1)%Z with (Z.of_nat (S j)) by lia.
  eapply writes_lift; [apply extract_subview_range; [done|done|lia]|].
  eapply writes_lift; [apply extract_subview_range; [done|done|lia]|].
  unfold thread_chunk. rewrite !Nat2Z.id.
  apply writes_local_deep_copy_thread; [done..|].
  intros idx Hidx. eapply chunk_inside; [done|done| |done]. lia.
Qed.

Lemma writes_copy_by_threads :
  copies (copy_by_threads N A B lanes) (fun r => r < n).
Proof using N_int A_allocated B_allocated disjoint.
  destruct (layout_strides_cons L (Z.to_nat N) (Z.to_nat N :: es))
    as (s & ss' & Hss & Hlen).
  destruct ss' as [|s1 ss]; [done|]. simpl in Hlen.
  unfold copy_by_threads, parallel_for_team, parallel_for_team_thread.
  cbn [league_rank league_size]. rewrite Hss.
  eapply writes_weaken; [|apply writes_parallel_for with
    (S := fun lid r => exists j, j ∈ Int.range (numberOfBatches N N) /\
                                 thread_chunk es s s1 ss lid j r)].
  - intros r Hr. destruct (chunk_cover L _ _ _ _ _ _ Hss r Hr)
      as (lid & j & idx & Hlid & Hj & Hidx & ->).
    exists (Z.of_nat lid). split; [apply elem_of_range; eauto|].
    exists (Z.of_nat j). split.
    + rewrite numberOfBatches_self by done. apply elem_of_range; eauto.
    + exists idx. by rewrite !Nat2Z.id.
  - intros z (lid & -> & Hlid)%elem_of_range.
    apply writes_parallel_for with (S := thread_chunk es s s1 ss (Z.of_nat lid)).
    rewrite numberOfBatches_self by done.
    intros z (j & -> & Hj)%elem_of_range.
    by apply writes_thread_call.
Qed.
(** The chunks of different threads share no element: the calls of the
    dispatch write disjoint parts of [B]. *)
Lemma thread_chunks_disjoint s s1 ss (lid1 j1 lid2 j2 : Z) r :
  layout_strides L ext = s :: s1 :: ss ->
  (0 <= lid1 < N)%Z -> (0 <= j1 < N)%Z ->
  (0 <= lid2 < N)%Z -> (0 <= j2 < N)%Z ->
  thread_chunk es s s1 ss lid1 j1 r -> thread_chunk es s s1 ss lid2 j2 r ->
  lid1 = lid2 /\ j1 = j2.
Proof.
  clear N_int A_allocated B_allocated disjoint.
  intros Hss Hl1 Hj1 Hl2 Hj2 (idx1 & Hb1 & Hr1) (idx2 & Hb2 & Hr2).
  apply in_bounds_inv_cons in Hb1 as (i1 & rest1 & -> & Hi1 & Hb1).
  apply in_bounds_inv_cons in Hb2 as (i2 & rest2 & -> & Hi2 & Hb2).
  assert (i1 = 0) as -> by lia. assert (i2 = 0) as -> by lia.
  assert (Z.to_nat lid1 :: Z.to_nat j1 :: rest1
          = Z.to_nat lid2 :: Z.to_nat j2 :: rest2) as Heq.
  { apply (layout_inj L ext).
    - apply in_bounds_cons. split; [lia|]. apply in_bounds_cons. split;
        [lia|done].
    - apply in_bounds_cons. split; [lia|]. apply in_bounds_cons. split;
        [lia|done].
    - rewrite Hss, !offset_cons. rewrite !offset_cons in Hr1, Hr2. lia. }
  injection Heq as H1 H2 _. lia.
Qed.

(** What the calling thread reads right after its own call returned. *)
Lemma thread_call_visible (lid j : Z) team W (m : Mem) :
  (0 <= lid < N)%Z -> (0 <= j < numberOfBatches N N)%Z ->
  written m0 b n (fun r => m0 !! (a + r)) W m ->
  let bounds := SelRange (chunk_start (unitsOfWork N N) j)
                         (chunk_stop N (unitsOfWork N N) j) in
  exists subSrc subDst m',
    extract_subview A lid bounds = Ok subSrc /\
    extract_subview B lid bounds = Ok subDst /\
    local_deep_copy_thread team subDst subSrc m = Ok (tt, m') /\
    forall k, in_bounds (extents subDst) k ->
      exists v, m !! elem_addr subSrc k = Some v /\
                m' !! elem_addr subDst k = Some v.
Proof using N_int A_allocated B_allocated disjoint.
  intros Hlid Hj Hm bounds. subst bounds.
  rewrite numberOfBatches_self in Hj by done.
  destruct (layout_strides_cons L (Z.to_nat N) (Z.to_nat N :: es))
    as (s & ss' & Hss & Hlen).
  destruct ss' as [|s1 ss]; [done|]. simpl in Hlen.
  rewrite Hss, chunk_start_self, chunk_stop_self by lia.
  assert (exists lidn : nat, lid = Z.of_nat lidn) as [lidn ->].
  { exists (Z.to_nat lid). lia. }
  assert (exists jn : nat, j = Z.of_nat jn) as [jn ->].
  { exists (Z.to_nat j). lia. }
  replace (Z.of_nat jn + 1)%Z with (Z.of_nat (S jn)) by lia.
  rewrite !extract_subview_range by lia.
  set (d := lidn * s + (jn * s1 + 0)).
  set (es2 := S jn - jn :: es).
  assert (forall k, in_bounds es2 k -> d + offset (s1 :: ss) k < n) as Hin.
  { intros k Hk. eapply chunk_inside; [done|lia| |done]. lia. }
  destruct (writes_local_deep_copy_thread m0 a b n A_allocated B_allocated
              disjoint d es2 (s1 :: ss) Hin team W m Hm)
    as (m' & Hrun & _ & _ & Hi).
  eexists _, _, m'. split; [done|]. split; [done|]. split; [exact Hrun|].
  intros k Hk. cbn [extents] in Hk. specialize (Hin k Hk).
  unfold elem_addr. cbn [data strides]. rewrite <- !Nat.add_assoc.
  destruct (lookup_lt_is_Some_2 m0 (a + (d + offset (s1 :: ss) k)))
    as [v Hv]; [lia|].
  exists v. split.
  - destruct Hm as (_ & Ho & _). rewrite Ho by lia. done.
  - rewrite Hi; [done| |done]. right. by exists k.
Qed.
End ThreadDispatch.

(** ** The checks of the tests *)

Lemma view_check_equals_fold lhs rhs (m : Mem) l acc :
  (forall i, i ∈ l ->
     is_Some (m !! (data lhs + i)) /\ is_Some (m !! (data rhs + i))) ->
  exists result,
    reduce_each l
      (fun i local_result =>
         let* x := load (data lhs + i) in
         let* y := load (data rhs + i) in
         ret (bool_decide (x = y) && local_result)) acc m
    = Ok (result, m) /\
    (result = true <->
     acc = true /\
     forall i, i ∈ l -> m !! (data lhs + i) = m !! (data rhs + i)).
Proof.
  revert acc. induction l as [|i l IH]; intros acc Hl; simpl.
  - exists acc. split; [done|]. split; [|tauto].
    intros ->. split; [done|]. intros i Hi. by apply elem_of_nil in Hi.
  - destruct (Hl i) as [[x Hx] [y Hy]]; [apply elem_of_cons; by left|].
    rewrite (bind_ok _ _ m (bool_decide (x = y) && acc) m).
    2: { rewrite (bind_ok _ _ _ _ _ (load_ok _ _ _ Hx)).
         rewrite (bind_ok _ _ _ _ _ (load_ok _ _ _ Hy)). done. }
    destruct (IH (bool_decide (x = y) && acc)) as (result & Hrun & Hres).
    { intros j Hj. apply Hl, elem_of_cons. by right. }
    exists result. split; [done|]. rewrite Hres.
    rewrite andb_true_iff, bool_decide_eq_true. split.
    + intros [[-> ->] Hall]. split; [done|].
      intros j [->|Hj]%elem_of_cons; [congruence|by apply Hall].
    + intros [-> Hall]. split.
      * split; [|done]. specialize (Hall i). rewrite Hx, Hy in Hall.
        apply Some_inj, Hall, elem_of_cons. by left.
      * intros j Hj. apply Hall, elem_of_cons. by right.
Qed.

Lemma view_check_equals_ok lhs rhs (m : Mem) :
  data lhs + span lhs <= length m -> data rhs + span lhs <= length m ->
  (forall i, i < span lhs -> m !! (data lhs + i) = m !! (data rhs + i)) ->
  view_check_equals lhs rhs m = Ok (true, m).
Proof.
  intros Hl Hr Heq.
  destruct (view_check_equals_fold lhs rhs m (sched (seq 0 (span lhs))) true)
    as (result & Hrun & Hres).
  { intros i Hi%elem_of_sched_1%elem_of_seq.
    split; apply lookup_lt_is_Some_2; lia. }
  unfold view_check_equals, parallel_reduce. rewrite Hrun. repeat f_equal.
  apply Hres. split; [done|].
  intros i Hi%elem_of_sched_1%elem_of_seq. apply Heq. lia.
Qed.

Lemma sum_fold base (m : Mem) value l acc :
  (forall i, i ∈ l -> m !! (base + i) = Some value) ->
  reduce_each l
    (fun i lsum => let* x := load (base + i) in ret (lsum + x)%Z) acc m
  = Ok ((acc + value * Z.of_nat (length l))%Z, m).
Proof.
  revert acc. induction l as [|i l IH]; intros acc Hl;
    cbn [reduce_each length].
  - unfold ret. do 2 f_equal; lia.
  - assert (m !! (base + i) = Some value) as Hi.
    { apply Hl, elem_of_cons. by left. }
    rewrite (bind_ok _ _ m (acc + value)%Z m).
    2: { by rewrite (bind_ok _ _ _ _ _ (load_ok _ _ _ Hi)). }
    rewrite IH by (intros j Hj; apply Hl, elem_of_cons; by right).
    do 2 f_equal; lia.
Qed.

Lemma sum_of_B_filled B (m : Mem) value :
  (forall i, i < span B -> m !! (data B + i) = Some value) ->
  sum_of_B B m = Ok ((value * Z.of_nat (span B))%Z, m).
Proof.
  intros H. unfold sum_of_B, parallel_reduce. rewrite (sum_fold _ _ value).
  - rewrite length_sched, length_seq. do 2 f_equal; lia.
  - intros i Hi%elem_of_sched_1%elem_of_seq. apply H. lia.
Qed.

Lemma correct_sum_eq {T} (N value : Z) (l : list T) :
  fold_left (fun correct_sum _ => (correct_sum * N)%Z) l value
  = (value * N ^ Z.of_nat (length l))%Z.
Proof.
  revert value. induction l as [|x l IH]; intros value; simpl fold_left.
  - simpl. lia.
  - rewrite IH. cbn [length]. rewrite Nat2Z.inj_succ, Z.pow_succ_r by lia.
    lia.
Qed.

Lemma size_of_make_array k e :
  Z.of_nat (size_of (make_array k e)) = (Z.of_nat e ^ Z.of_nat k)%Z.
Proof.
  induction k as [|k IH]; [done|].
  cbn [make_array size_of]. rewrite Nat2Z.inj_mul, IH.
  rewrite Nat2Z.inj_succ, Z.pow_succ_r by lia. reflexivity.
Qed.

Lemma check_sum_of_filled N B (m : Mem) value k :
  (0 <= N)%Z -> extents B = make_array k (Z.to_nat N) ->
  (forall i, i < span B -> m !! (data B + i) = Some value) ->
  check_sum_of N B value m = Ok (true, m).
Proof.
  intros HN Hext Hfilled. unfold check_sum_of.
  rewrite (bind_ok _ _ _ _ _ (sum_of_B_filled _ _ _ Hfilled)).
  unfold ret. do 2 f_equal. apply bool_decide_eq_true.
  rewrite correct_sum_eq, length_seq. unfold span, rank.
  rewrite Hext, size_of_make_array, length_make_array, Z2Nat.id by done.
  reflexivity.
Qed.

(** ** The constructor *)

Lemma writes_view_init m0 a es ss :
  a + size_of es <= length m0 ->
  writes m0 a (size_of es) (fun r => Some (Z.of_nat r))
         (view_init (mkView a es ss)) (fun r => r < size_of es).
Proof.
  intros Ha. unfold view_init, span. cbn [data extents].
  eapply writes_weaken; [|apply writes_parallel_for with
    (S := fun i r => r = i)].
  - intros r Hr. exists r. split; [|done]. apply elem_of_seq. lia.
  - intros i Hi%elem_of_seq. apply writes_store; [done|lia|done].
Qed.

Lemma constructor_spec L Rank N (mi : Mem) :
  let es := make_array Rank (Z.to_nat N) in
  let ss := layout_strides L es in
  let a := length mi in
  let b := length mi + size_of es in
  exists m0,
    TestLocalDeepCopyRank L Rank N mi
      = Ok ((mkView a es ss, mkView b es ss), m0) /\
    length m0 = length mi + size_of es + size_of es /\
    (forall i, i < size_of es -> m0 !! (a + i) = Some (Z.of_nat i)) /\
    (forall i, i < size_of es -> m0 !! (b + i) = Some 0%Z) /\
    (forall x, x < length mi -> m0 !! x = mi !! x).
Proof.
  intros es ss a b.
  set (m2 := (mi ++ replicate (size_of es) 0%Z) ++ replicate (size_of es) 0%Z).
  assert (length m2 = length mi + size_of es + size_of es) as Hlen.
  { unfold m2. rewrite !length_app, !length_replicate. lia. }
  destruct (writes_view_init m2 a es ss ltac:(lia) _ _ (written_init m2 _ _ _))
    as (m0 & Hrun & Hl & Ho & Hi).
  exists m0. split; [|split; [lia|split; [|split]]].
  - unfold TestLocalDeepCopyRank, bind, view_create.
    fold es. fold ss. rewrite length_app, length_replicate.
    fold a. fold b. fold m2. rewrite Hrun. reflexivity.
  - intros i Hlt. apply Hi; [by right|done].
  - intros i Hlt. rewrite Ho by lia. unfold m2.
    rewrite lookup_app_r by (rewrite length_app, length_replicate; lia).
    rewrite length_app, length_replicate.
    apply lookup_replicate_2. lia.
  - intros x Hx. rewrite Ho by lia. unfold m2.
    rewrite <- app_assoc. by apply lookup_app_l.
Qed.

(** ** Outcome of a copy test *)

(** Two memories that agree with [m0] outside the region and hold the
    prescribed values everywhere inside it are equal. *)
Lemma written_all_unique m0 b n val (m1 m2 : Mem) :
  written m0 b n val (fun _ => True) m1 ->
  written m0 b n val (fun _ => True) m2 -> m1 = m2.
Proof.
  intros (Hl1 & Ho1 & Hi1) (Hl2 & Ho2 & Hi2). apply list_eq. intros x.
  destruct (decide (b <= x < b + n)) as [Hx|Hx].
  - replace x with (b + (x - b)) by lia.
    rewrite Hi1, Hi2 by (done || lia). reflexivity.
  - by rewrite Ho1, Ho2.
Qed.

Section CopyTest.
Variable L : Layout.
Variable R : nat.
Variable N : Z.
Variable mi : Mem.
Variable dispatch : View -> View -> M unit.

Abbreviation ext := (make_array (S (S R)) (Z.to_nat N)).
Abbreviation n := (size_of ext).
Abbreviation A := (mkView (length mi) ext (layout_strides L ext)).
Abbreviation B := (mkView (length mi + n) ext (layout_strides L ext)).

Hypothesis dispatch_writes : forall m0,
  length m0 = length mi + n + n ->
  writes m0 (data B) n (fun r => m0 !! (data A + r)) (dispatch A B)
         (fun r => r < n).

Lemma copy_test_correct :
  exists m0 m1,
    TestLocalDeepCopyRank L (S (S R)) N mi = Ok ((A, B), m0) /\
    (forall i, i < span A -> m0 !! (data A + i) = Some (Z.of_nat i)) /\
    (dispatch A B ;; view_check_equals A B) m0 = Ok (true, m1) /\
    (forall idx, in_bounds (extents B) idx ->
       exists v, m1 !! elem_addr B idx = Some v /\
                 m1 !! elem_addr A idx = Some v) /\
    (forall i, i < span B -> m1 !! (data B + i) = Some (Z.of_nat i)) /\
    written m0 (data B) n (fun r => m0 !! (data A + r)) (fun _ => True) m1.
Proof using dispatch_writes.
  destruct (constructor_spec L (S (S R)) N mi)
    as (m0 & Hctor & Hlen & HA & HB & Hmi).
  destruct (dispatch_writes m0 Hlen _ _ (written_init m0 _ _ _))
    as (m1 & Hrun & Hm1).
  assert (written m0 (data B) n (fun r => m0 !! (data A + r))
                  (fun _ => True) m1) as Hall.
  { destruct Hm1 as (Hl & Ho & Hi). repeat split; [done..|].
    intros r _ Hr. apply Hi; [by right|done]. }
  destruct Hall as (Hl & Ho & Hi).
  assert (forall i, i < n -> m1 !! (data A + i) = m0 !! (data A + i)) as HA1.
  { intros i Hlt. apply Ho. cbn [data]. lia. }
  assert (forall i, i < n -> m1 !! (data B + i) = m1 !! (data A + i)) as Heq.
  { intros i Hlt. rewrite HA1 by done. by apply Hi. }
  exists m0, m1. split; [exact Hctor|]. split; [exact HA|]. split.
  { rewrite (bind_ok _ _ _ _ _ Hrun).
    apply view_check_equals_ok.
    - unfold span. cbn [data extents]. lia.
    - unfold span. cbn [data extents]. lia.
    - intros i Hlt. symmetry. by apply Heq. }
  split.
  { intros idx Hidx. unfold elem_addr. cbn [strides].
    pose proof (layout_bound L _ _ Hidx) as Hb.
    exists (Z.of_nat (offset (layout_strides L ext) idx)).
    rewrite Heq, HA1 by done. split; by apply HA. }
  split.
  { intros i Hlt. rewrite Heq, HA1 by done. by apply HA. }
  repeat split; done.
Qed.
End CopyTest.


(** ** Outcome of a fill test *)

Section FillTest.
Variable L : Layout.
Variable R : nat.
Variable N : Z.
Variable mi : Mem.
Variable value : Z.
Variable dispatch : View -> M unit.

Abbreviation ext := (make_array (S (S R)) (Z.to_nat N)).
Abbreviation n := (size_of ext).
Abbreviation A := (mkView (length mi) ext (layout_strides L ext)).
Abbreviation B := (mkView (length mi + n) ext (layout_strides L ext)).

Hypothesis N_nonneg : (0 <= N)%Z.
Hypothesis dispatch_writes : forall m0,
  length m0 = length mi + n + n ->
  writes m0 (data B) n (fun _ => Some value) (dispatch B) (fun r => r < n).

Lemma fill_test_correct :
  exists m0 m1,
    TestLocalDeepCopyRank L (S (S R)) N mi = Ok ((A, B), m0) /\
    dispatch B m0 = Ok (tt, m1) /\
    (forall i, i < span B -> m1 !! (data B + i) = Some value) /\
    (forall idx, in_bounds (extents B) idx ->
       m1 !! elem_addr B idx = Some value) /\
    sum_of_B B m1 = Ok ((value * N ^ Z.of_nat (rank B))%Z, m1) /\
    check_sum_of N B value m1 = Ok (true, m1) /\
    written m0 (data B) n (fun _ => Some value) (fun _ => True) m1.
Proof using N_nonneg dispatch_writes.
  destruct (constructor_spec L (S (S R)) N mi)
    as (m0 & Hctor & Hlen & HA & HB & Hmi).
  destruct (dispatch_writes m0 Hlen _ _ (written_init m0 _ _ _))
    as (m1 & Hrun & Hm1).
  assert (written m0 (data B) n (fun _ => Some value) (fun _ => True) m1)
    as Hall.
  { destruct Hm1 as (Hl & Ho & Hi). repeat split; [done..|].
    intros r _ Hr. apply Hi; [by right|done]. }
  assert (forall i, i < span B -> m1 !! (data B + i) = Some value) as Hflat.
  { intros i Hlt. destruct Hall as (_ & _ & Hi). by apply Hi. }
  exists m0, m1. split; [exact Hctor|]. split; [exact Hrun|].
  split; [exact Hflat|]. split.
  { intros idx Hidx. unfold elem_addr. cbn [strides].
    apply Hflat. by apply layout_bound. }
  split.
  { rewrite (sum_of_B_filled _ _ _ Hflat). do 2 f_equal.
    unfold span, rank. cbn [extents].
    rewrite size_of_make_array, length_make_array, Z2Nat.id by done.
    reflexivity. }
  split; [|exact Hall].
  by apply (check_sum_of_filled N B m1 value (S (S R))).
Qed.
End FillTest.



(** ** The chunk decomposition *)

Example chunks_of_5_over_2 :
  unitsOfWork 5 2 = 3%Z /\ numberOfBatches 5 2 = 1%Z /\
  chunk_start 3 0 = 0%Z /\ chunk_stop 5 3 0 = 3%Z.
Proof. repeat split. Qed.

(** C3, as stated, fails: with N = 5 and T = 2 there is one batch of three
    units, and the indices 3 and 4 lie in no chunk. *)
Lemma chunks_miss_the_tail : ~ (chunks_cover 5 2 /\ chunks_disjoint 5 2).
Proof.
  intros [Hcover _]. destruct (Hcover 3%Z ltac:(lia)) as (idx & Hidx & Hj).
  change (numberOfBatches 5 2) with 1%Z in Hidx.
  assert (idx = 0%Z) as -> by lia.
  change (unitsOfWork 5 2) with 3%Z in Hj.
  change (chunk_stop 5 3 0) with 3%Z in Hj. lia.
Qed.

Section ChunkCover.
Local Open Scope Z_scope.
Variables N T : Z.
Hypothesis N_int : 1 <= N <= Int.max_int.
Hypothesis T_int : 1 <= T <= Int.max_int.

Abbreviation u := (unitsOfWork N T).
Abbreviation batches := (numberOfBatches N T).

Lemma in_chunk_iff idx j :
  in_chunk N T idx j <-> 0 <= idx < batches /\ idx * u <= j < (idx + 1) * u.
Proof using N_int T_int.
  unfold in_chunk. split; intros [Hidx Hj]; (split; [done|]).
  - by rewrite chunk_start_eq, chunk_stop_eq in Hj.
  - by rewrite chunk_start_eq, chunk_stop_eq.
Qed.

Lemma chunks_union j :
  (exists idx, in_chunk N T idx j) <-> 0 <= j < batches * u.
Proof using N_int T_int.
  pose proof (unitsOfWork_range N T N_int T_int) as Hu.
  pose proof (numberOfBatches_range N T N_int T_int) as Hb.
  split.
  - intros (idx & [Hidx Hj]%in_chunk_iff). nia.
  - intros Hj. exists (j / u). apply in_chunk_iff.
    pose proof (Z.div_mod j u ltac:(lia)).
    pose proof (Z.mod_pos_bound j u ltac:(lia)).
    assert (0 <= j / u) by (apply Z.div_pos; lia).
    assert (j / u < batches) by (apply Z.div_lt_upper_bound; nia).
    nia.
Qed.

Lemma chunks_disjoint_ok : chunks_disjoint N T.
Proof using N_int T_int.
  pose proof (unitsOfWork_range N T N_int T_int) as Hu.
  intros idx1 idx2 j [H1 Hj1]%in_chunk_iff [H2 Hj2]%in_chunk_iff. nia.
Qed.

Lemma chunks_cover_iff : chunks_cover N T <-> Z.rem N u = 0.
Proof using N_int T_int.
  pose proof (unitsOfWork_range N T N_int T_int) as Hu.
  pose proof (numberOfBatches_range N T N_int T_int) as Hb.
  pose proof (numberOfBatches_eq N T N_int T_int) as Hbe.
  rewrite Z.quot_div_nonneg in Hbe by lia.
  rewrite Z.rem_mod_nonneg by lia.
  pose proof (Z.div_mod N u ltac:(lia)).
  pose proof (Z.mod_pos_bound N u ltac:(lia)).
  split.
  - intros Hcover. destruct (Hcover (N - 1) ltac:(lia)) as [idx Hidx].
    assert (exists idx, in_chunk N T idx (N - 1)) as Hex by eauto.
    apply chunks_union in Hex. nia.
  - intros Hrem j Hj. apply chunks_union. nia.
Qed.
End ChunkCover.

(** C3, amended: for [int] values N >= 1 and T >= 1 the chunks are
    pairwise disjoint and lie inside [0, N); together they are exactly
    the indices below numberOfBatches * unitsOfWork, so they cover
    [0, N) if and only if unitsOfWork divides N; this is the case when the
    thread count is N, the league size the test uses. *)
Theorem chunks_partition N T :
  (1 <= N <= Int.max_int)%Z -> (1 <= T <= Int.max_int)%Z ->
  chunks_disjoint N T /\
  (forall idx j, in_chunk N T idx j -> (0 <= j < N)%Z) /\
  (forall j, (exists idx, in_chunk N T idx j) <->
             (0 <= j < numberOfBatches N T * unitsOfWork N T)%Z) /\
  (chunks_cover N T <-> Z.rem N (unitsOfWork N T) = 0%Z) /\
  (T = N -> chunks_cover N T).
Proof.
  intros HN HT. split; [by apply chunks_disjoint_ok|].
  split.
  { intros idx j Hin.
    assert (exists idx, in_chunk N T idx j) as Hex by eauto.
    apply chunks_union in Hex; [|done..].
    pose proof (numberOfBatches_range N T HN HT). lia. }
  split; [intros j; by apply chunks_union|].
  split; [by apply chunks_cover_iff|].
  intros ->. apply chunks_cover_iff; [done..|].
  rewrite unitsOfWork_self by done. apply Z.rem_1_r.
Qed.

(** ** view_check_equals *)

(** C9: on two views whose first [span lhs] cells are allocated, the span
    being an [int] as the index of the lambda is, [view_check_equals]
    returns true exactly when the cells at every flat index below the span
    of [lhs] are equal; memory is left as it was. *)
Theorem view_check_equals_spec lhs rhs (m : Mem) :
  Int.in_range (Z.of_nat (span lhs)) ->
  data lhs + span lhs <= length m -> data rhs + span lhs <= length m ->
  exists result,
    view_check_equals lhs rhs m = Ok (result, m) /\
    (result = true <->
     forall i, i < span lhs -> m !! (data lhs + i) = m !! (data rhs + i)).
Proof.
  intros _ Hl Hr.
  destruct (view_check_equals_fold lhs rhs m (sched (seq 0 (span lhs))) true)
    as (result & Hrun & Hres).
  { intros i Hi%elem_of_sched_1%elem_of_seq.
    split; apply lookup_lt_is_Some_2; lia. }
  exists result. split; [exact Hrun|]. rewrite Hres. split.
  - intros [_ H] i Hi. apply H, elem_of_sched_2, elem_of_seq. lia.
  - intros H. split; [done|].
    intros i Hi%elem_of_sched_1%elem_of_seq. apply H. lia.
Qed.

(** ** extract_subview *)

Lemma subview_map_all_inv es ss off es2 ss2 :
  subview_map es ss (make_array (length es) SelAll) = Ok (off, es2, ss2) ->
  off = 0 /\ es2 = es /\ ss2 = ss.
Proof.
  revert ss off es2 ss2.
  induction es as [|e es IH]; intros [|s ss] off es2 ss2; simpl; try done.
  - by intros [= <- <- <-].
  - destruct (subview_map es ss (make_array (length es) SelAll))
      as [[[off' es2'] ss2']|] eqn:Hrec; simpl; [|done].
    destruct (IH _ _ _ _ Hrec) as (-> & -> & ->).
    by intros [= <- <- <-].
Qed.

(** Whatever [extract_subview] returns is a handle on the storage of the
    parent. *)
Lemma extract_subview_ok_inv src lid bounds :
  (rank src <= 1 -> extract_subview src lid bounds = Fail StaticAssert) /\
  (forall sv, extract_subview src lid bounds = Ok sv ->
     1 < rank src /\
     (forall m : Mem, lift (extract_subview src lid bounds) m = Ok (sv, m)) /\
     extents sv = match bounds with
                  | SelIndex _ => drop 2 (extents src)
                  | SelAll => drop 1 (extents src)
                  | SelRange a b => Z.to_nat (b - a) :: drop 2 (extents src)
                  end /\
     forall idx, in_bounds (extents sv) idx ->
       let p := Z.to_nat lid ::
                match bounds with
                | SelIndex i => Z.to_nat i :: idx
                | SelAll => idx
                | SelRange a _ =>
                    match idx with
                    | j :: rest => Z.to_nat a + j :: rest
                    | [] => []
                    end
                end in
       in_bounds (extents src) p /\ elem_addr sv idx = elem_addr src p).
Proof.
  split.
  { intros Hrank. unfold extract_subview. by rewrite decide_False by lia. }
  intros sv Hsv. pose proof Hsv as Hsub. unfold extract_subview in Hsub.
  case_decide as Hrank; [|done]. split; [exact Hrank|].
  split; [intros m; by rewrite Hsv|].
  pose proof (subview_alias _ _ _ Hsub) as Halias.
  destruct src as [d es ss]. unfold rank in *. cbn [extents] in *.
  destruct es as [|e0 [|e1 es]]; [simpl in Hrank; lia..|].
  unfold subview in Hsub. cbn [extents strides length] in *.
  replace (S (S (length es)) - 2) with (length es) in * by lia.
  destruct ss as [|s0 [|s1 ss]]; [done| |].
  { cbn [subview_map rbind] in Hsub. done. }
  cbn [subview_map] in Hsub.
  destruct (subview_map es ss (make_array (length es) SelAll))
    as [[[off es2] ss2]|] eqn:Hrec; [|done].
  destruct (subview_map_all_inv _ _ _ _ _ Hrec) as (-> & -> & ->).
  cbn [rbind] in Hsub.
  assert (forall idx, in_bounds es idx ->
            parent_index (make_array (length es) SelAll) idx = idx) as Hrest.
  { intros idx Hidx. apply parent_index_all. by apply in_bounds_length. }
  destruct bounds as [i| |a' b'].
  - case_decide; [|done]. cbn [rbind] in Hsub. case_decide; [|done].
    injection Hsub as <-. cbn [extents] in *. split; [done|].
    intros idx Hidx. specialize (Halias idx Hidx).
    cbn [parent_index] in Halias. by rewrite Hrest in Halias.
  - cbn [rbind] in Hsub. case_decide; [|done].
    injection Hsub as <-. cbn [extents] in *. split; [done|].
    intros idx Hidx. specialize (Halias idx Hidx).
    apply in_bounds_inv_cons in Hidx as (j & rest & -> & Hj & Hidx).
    cbn [parent_index] in Halias. by rewrite Hrest in Halias.
  - case_decide; [|done]. cbn [rbind] in Hsub. case_decide; [|done].
    injection Hsub as <-. cbn [extents] in *. split; [done|].
    intros idx Hidx. specialize (Halias idx Hidx).
    apply in_bounds_inv_cons in Hidx as (j & rest & -> & Hj & Hidx).
    cbn [parent_index] in Halias. by rewrite Hrest in Halias.
Qed.

(** C10: [extract_subview] is rejected for a parent of rank at most 1.
    For a well-formed parent of rank R > 1, a [lid] inside dimension 0 and
    [bounds] inside dimension 1, it returns a view, and this view is a
    handle on the storage of the parent: dimension 0 is fixed to [lid],
    [bounds] selects in dimension 1, the remaining R-2 dimensions are
    kept whole, every element of the result is the element of the parent
    at the corresponding index, and memory is not touched. *)
Theorem extract_subview_alias src lid bounds :
  (rank src <= 1 -> extract_subview src lid bounds = Fail StaticAssert) /\
  (forall e0 e1 es,
     extents src = e0 :: e1 :: es -> length (strides src) = rank src ->
     (0 <= lid < Z.of_nat e0)%Z -> sel_inside e1 bounds ->
     exists sv,
       extract_subview src lid bounds = Ok sv /\
       (forall m : Mem,
          lift (extract_subview src lid bounds) m = Ok (sv, m)) /\
       extents sv = match bounds with
                    | SelIndex _ => es
                    | SelAll => e1 :: es
                    | SelRange a b => Z.to_nat (b - a) :: es
                    end /\
       forall idx, in_bounds (extents sv) idx ->
         let p := Z.to_nat lid ::
                  match bounds with
                  | SelIndex i => Z.to_nat i :: idx
                  | SelAll => idx
                  | SelRange a _ =>
                      match idx with
                      | j :: rest => Z.to_nat a + j :: rest
                      | [] => []
                      end
                  end in
         in_bounds (extents src) p /\ elem_addr sv idx = elem_addr src p).
Proof.
  split; [apply extract_subview_ok_inv|].
  intros e0 e1 es Hext Hlen Hlid Hsel.
  assert (exists sv, extract_subview src lid bounds = Ok sv) as (sv & Hsv).
  { destruct src as [d es' ss]. unfold rank in Hlen.
    cbn [extents strides] in *. subst es'.
    destruct ss as [|s0 [|s1 ss]]; [done..|]. cbn [length] in Hlen.
    unfold extract_subview, rank, subview.
    cbn [extents strides data length].
    rewrite decide_True by lia.
    replace (S (S (length es)) - 2) with (length es) by lia.
    cbn [subview_map]. rewrite subview_map_all by lia. cbn [rbind].
    destruct bounds as [i| |a b]; cbn [sel_inside] in Hsel.
    - rewrite decide_True by done. cbn [rbind].
      rewrite decide_True by done. by eexists.
    - cbn [rbind]. rewrite decide_True by done. by eexists.
    - rewrite decide_True by done. cbn [rbind].
      rewrite decide_True by done. by eexists. }
  destruct (proj2 (extract_subview_ok_inv src lid bounds) sv Hsv)
    as (_ & Hlift & Hexts & Halias).
  exists sv. split; [exact Hsv|]. split; [exact Hlift|].
  split; [|exact Halias].
  rewrite Hexts, Hext. by destruct bounds.
Qed.

Example extract_subview_shares_storage :
  let parent := mkView 0 [2; 3] (layout_strides LayoutRight [2; 3]) in
  exists sv m1,
    extract_subview parent 1 (SelRange 1 3) = Ok sv /\
    store (elem_addr sv [1]) 7 [0; 1; 2; 3; 4; 5]%Z = Ok (tt, m1) /\
    m1 !! elem_addr parent [1; 2] = Some 7%Z.
Proof. eexists _, _. repeat split. Qed.

(** ** The scratch round trip *)

Lemma in_bounds_one e idx :
  in_bounds [e] idx <-> exists i, idx = [i] /\ i < e.
Proof.
  split.
  - intros (i & idx' & -> & Hi & H)%in_bounds_inv_cons.
    inversion H; subst. eauto.
  - intros (i & -> & Hi). apply in_bounds_cons. split; [done|constructor].
Qed.

Section ScratchFunctor.
Variable e : nat.
Variables c1 c2 sc : nat.
Variable team : TeamMember.
Variable m : Mem.
Hypothesis lanes_pos : 0 < team_size team.
Hypothesis check_view_1_allocated : c1 + e <= length m.
Hypothesis check_view_2_allocated : c2 + e <= length m.
Hypothesis scratch_allocated : sc + e <= length m.
Hypothesis disjoint_1_2 : c1 + e <= c2 \/ c2 + e <= c1.
Hypothesis disjoint_1_s : c1 + e <= sc \/ sc + e <= c1.
Hypothesis disjoint_2_s : c2 + e <= sc \/ sc + e <= c2.

Abbreviation shview := (mkView sc [e; 1] [1; 1]).

(** Lane [index] fills its row of the scratch view with [index]. *)
Lemma writes_scratch_rows :
  writes m sc e (fun r => Some (Z.of_nat r))
    (parallel_for_team_thread team (Z.of_nat e) (fun index =>
       let* thread_shview := lift (subview shview [SelIndex index; SelAll]) in
       local_deep_copy_scalar thread_shview index))
    (fun r => r < e).
Proof using All.
  unfold parallel_for_team_thread.
  eapply writes_weaken; [|apply writes_parallel_for with
    (S := fun index r => exists idx, in_bounds [1] idx /\
            r = Z.to_nat index * 1 + 0 + offset [1] idx)].
  - intros r Hr. exists (Z.of_nat r). split; [apply elem_of_range|].
    + exists r. split; [done|lia].
    + exists [0]. split.
      * apply in_bounds_one. exists 0. split; [done|lia].
      * rewrite Nat2Z.id. simpl. lia.
  - intros z (k & -> & Hk)%elem_of_range. rewrite Nat2Z.id in Hk.
    eapply writes_lift.
    { unfold subview. cbn [extents strides data subview_map rbind].
      rewrite decide_True by lia. reflexivity. }
    rewrite Nat2Z.id.
    apply writes_local_deep_copy_scalar; [done| |].
    + intros idx (i & -> & Hi)%in_bounds_one. simpl. lia.
    + intros idx (i & -> & Hi)%in_bounds_one. simpl. f_equal. lia.
Qed.

Lemma column_0 :
  subview shview [SelAll; SelIndex 0] = Ok (mkView (sc + 0) [e] [1]).
Proof using Type. reflexivity. Qed.

(** The team copies column 0 of the scratch view into a check view. *)
Lemma writes_copy_column (m0 : Mem) c :
  length m0 = length m -> c + e <= length m ->
  c + e <= sc \/ sc + e <= c ->
  writes m0 c e (fun r => m0 !! (sc + r))
    (let* column := lift (subview shview [SelAll; SelIndex 0]) in
     local_deep_copy_team team (mkView c [e] [1]) column)
    (fun r => r < e).
Proof using All.
  intros Hlen Hc Hdisj.
  eapply writes_lift; [apply column_0|].
  eapply writes_weaken;
    [|apply writes_local_deep_copy_team_at with (d := 0);
      [lia|done|lia|lia|lia| |done]].
  - intros r Hr. exists [r]. split; [apply in_bounds_one; eauto|].
    simpl. lia.
  - intros idx (i & -> & Hi)%in_bounds_one. simpl. lia.
Qed.

(** The team fills the whole scratch view. *)
Lemma writes_fill_scratch (m0 : Mem) value :
  length m0 = length m ->
  writes m0 sc e (fun _ => Some value)
    (local_deep_copy_team_scalar team shview value)
    (fun r => r < e).
Proof using All.
  intros Hlen.
  eapply writes_weaken;
    [|apply writes_local_deep_copy_team_scalar_at with (d := 0);
      [lia|lia| |done|done]].
  - intros r Hr. exists [r; 0]. split.
    + apply in_bounds_cons. split; [done|]. apply in_bounds_one. eauto.
    + simpl. lia.
  - intros idx (i & idx' & -> & Hi & Hidx)%in_bounds_inv_cons.
    apply in_bounds_one in Hidx as (j & -> & Hj). simpl. lia.
Qed.

Lemma written_everywhere m0 b n val S (m1 : Mem) :
  (forall r, r < n -> S r) ->
  written m0 b n val (fun r => False \/ S r) m1 ->
  length m1 = length m0 /\
  (forall x, ~ (b <= x < b + n) -> m1 !! x = m0 !! x) /\
  (forall r, r < n -> m1 !! (b + r) = val r).
Proof using Type.
  intros HS (Hl & Ho & Hi). repeat split; [done..|].
  intros r Hr. apply Hi; [right; by apply HS|done].
Qed.

Lemma DeepCopyScratchFunctor_spec :
  exists m',
    DeepCopyScratchFunctor (mkView c1 [e] [1]) (mkView c2 [e] [1])
      (Z.of_nat e) sc team m = Ok (tt, m') /\
    length m' = length m /\
    (forall x, ~ (c1 <= x < c1 + e) -> ~ (c2 <= x < c2 + e) ->
               ~ (sc <= x < sc + e) -> m' !! x = m !! x) /\
    forall i, i < e ->
      m' !! (c1 + i) = Some (Z.of_nat i) /\
      m' !! (c2 + i) = Some 6%Z /\
      m' !! (sc + i) = Some 6%Z.
Proof using All.
  unfold DeepCopyScratchFunctor, ShMemView. rewrite Nat2Z.id.
  change (layout_strides LayoutRight [e; 1]) with [1 * 1; 1].
  change (1 * 1) with 1.
  destruct (writes_scratch_rows _ _ (written_init m _ _ _))
    as (ma & Hrun1 & Hma).
  apply written_everywhere in Hma as (Hla & Hoa & Hia); [|done].
  rewrite (bind_ok _ _ _ _ _ Hrun1).
  destruct (writes_copy_column ma c1 Hla check_view_1_allocated disjoint_1_s
              _ _ (written_init ma _ _ _)) as (mb & Hrun2 & Hmb).
  apply written_everywhere in Hmb as (Hlb & Hob & Hib); [|done].
  rewrite (bind_ok _ _ _ _ _ Hrun2).
  destruct (writes_fill_scratch mb 6 ltac:(lia)
              _ _ (written_init mb _ _ _)) as (mc & Hrun3 & Hmc).
  apply written_everywhere in Hmc as (Hlc & Hoc & Hic); [|done].
  rewrite (bind_ok _ _ _ _ _ Hrun3).
  destruct (writes_copy_column mc c2 ltac:(lia) check_view_2_allocated
              disjoint_2_s _ _ (written_init mc _ _ _))
    as (md & Hrun4 & Hmd).
  apply written_everywhere in Hmd as (Hld & Hod & Hid); [|done].
  exists md. split; [exact Hrun4|]. split; [lia|]. split.
  - intros x H1 H2 H3. by rewrite Hod, Hoc, Hob, Hoa.
  - intros i Hi. split; [|split].
    + rewrite Hod, Hoc by lia. rewrite Hib, Hia by done. reflexivity.
    + rewrite Hid, Hic by done. reflexivity.
    + rewrite Hod by lia. by rewrite Hic.
Qed.
End ScratchFunctor.

Lemma scratch_asserts_fold check_view_1 check_view_2 (m : Mem) l acc :
  (forall i, i ∈ l ->
     m !! elem_addr check_view_1 [i] = Some (Z.of_nat i) /\
     m !! elem_addr check_view_2 [i] = Some 6%Z) ->
  reduce_each l
    (fun i ok =>
       let* host_copy_1 := load (elem_addr check_view_1 [i]) in
       let* host_copy_2 := load (elem_addr check_view_2 [i]) in
       ret (bool_decide (host_copy_1 = Z.of_nat i)
            && bool_decide (host_copy_2 = 6%Z) && ok)) acc m
  = Ok (acc, m).
Proof.
  revert acc. induction l as [|i l IH]; intros acc Hl; [done|].
  cbn [reduce_each].
  destruct (Hl i) as [H1 H2]; [apply elem_of_cons; by left|].
  rewrite (bind_ok _ _ m acc m).
  - apply IH. intros j Hj. apply Hl, elem_of_cons. by right.
  - rewrite (bind_ok _ _ _ _ _ (load_ok _ _ _ H1)).
    rewrite (bind_ok _ _ _ _ _ (load_ok _ _ _ H2)).
    unfold ret. by rewrite !bool_decide_eq_true_2.
Qed.

(** C5: in the scratch scenario with N lanes of work, the copy of column
    0 of the scratch view taken after lane i filled row i with i leaves
    [check_view_1[i] = i], and the copy taken after the team filled the
    scratch view with 6 leaves [check_view_2[i] = 6], for every i in
    [0, N) and whatever the scratch pad held; the assertions of the test
    pass. *)
Theorem deep_copy_scratch_correct N lanes junk (mi : Mem) :
  (1 <= N)%Z -> 0 < lanes ->
  exists check_view_1 check_view_2 m1,
    deep_copy_scratch_dispatch N lanes junk mi
      = Ok ((check_view_1, check_view_2), m1) /\
    (forall i, i < Z.to_nat N ->
       m1 !! elem_addr check_view_1 [i] = Some (Z.of_nat i) /\
       m1 !! elem_addr check_view_2 [i] = Some 6%Z) /\
    deep_copy_scratch_with N lanes junk mi = Ok (true, m1) /\
    (N = 8%Z -> deep_copy_scratch lanes junk mi = Ok (true, m1)).
Proof.
  intros HN Hlanes.
  set (e := Z.to_nat N).
  set (c1 := length mi). set (c2 := c1 + e). set (sc := c2 + e).
  set (ma := ((mi ++ replicate e 0%Z) ++ replicate e 0%Z)
               ++ (junk <$> seq 0 e)).
  assert (length ma = sc + e) as Hlen.
  { unfold ma, sc, c2, c1.
    rewrite !length_app, !length_replicate, length_fmap, length_seq. lia. }
  destruct (DeepCopyScratchFunctor_spec e c1 c2 sc (mkTeamMember 0 1 lanes) ma)
    as (m1 & Hrun & Hl1 & _ & Hres); [done|unfold sc, c2; lia..|].
  assert (deep_copy_scratch_dispatch N lanes junk mi
          = Ok ((mkView c1 [e] [1], mkView c2 [e] [1]), m1)) as Hdispatch.
  { unfold deep_copy_scratch_dispatch, bind, view_create, team_scratch.
    cbn [make_array size_of layout_strides strides_right].
    fold e. rewrite Nat.mul_1_r.
    rewrite !length_app, !length_replicate. fold c1. fold c2. fold sc.
    fold ma. unfold parallel_for_team, parallel_for.
    change (Int.range 1) with [0%Z]. rewrite sched_singleton.
    cbn [for_each extents hd]. unfold bind. rewrite Hrun. reflexivity. }
  assert (forall i, i < e ->
            m1 !! elem_addr (mkView c1 [e] [1]) [i] = Some (Z.of_nat i) /\
            m1 !! elem_addr (mkView c2 [e] [1]) [i] = Some 6%Z) as Hviews.
  { intros i Hi. destruct (Hres i Hi) as (H1 & H2 & _).
    unfold elem_addr. cbn [data strides offset].
    rewrite !Nat.mul_1_r, !Nat.add_0_r. done. }
  assert (deep_copy_scratch_with N lanes junk mi = Ok (true, m1)) as Htest.
  { unfold deep_copy_scratch_with.
    rewrite (bind_ok _ _ _ _ _ Hdispatch). cbn [fst snd].
    apply scratch_asserts_fold. intros i Hi%elem_of_seq.
    apply Hviews. fold e in Hi. lia. }
  eexists _, _, m1. split; [exact Hdispatch|]. split; [exact Hviews|].
  split; [exact Htest|]. intros ->. exact Htest.
Qed.

(** * Further properties of the test drivers

    The statements below carry, as hypotheses, the ranges in which the
    conventions of the model are exact: a span that is an [int]
    ([Int.in_range]) where a lambda receives the flat index as [int i], and
    sums and products of doubles that are exact ([exact_double]) where
    [check_sum] adds and multiplies. *)

(** ** Regions and overwritten memories *)

Lemma length_region a n (m : Mem) :
  a + n <= length m -> length (region a n m) = n.
Proof.
  intros H. unfold region. rewrite length_take, length_drop. lia.
Qed.

Lemma lookup_region a n (m : Mem) r :
  r < n -> region a n m !! r = m !! (a + r).
Proof.
  intros H. unfold region. by rewrite lookup_take_lt, lookup_drop.
Qed.

Lemma length_overwrite b vs (m : Mem) :
  b + length vs <= length m -> length (overwrite b vs m) = length m.
Proof.
  intros H. unfold overwrite.
  rewrite !length_app, length_take, length_drop. lia.
Qed.

Lemma lookup_overwrite_inside b vs (m : Mem) r :
  b <= length m -> r < length vs -> overwrite b vs m !! (b + r) = vs !! r.
Proof.
  intros Hb Hr. unfold overwrite.
  rewrite lookup_app_r by (rewrite length_take; lia).
  rewrite length_take, lookup_app_l by lia. f_equal. lia.
Qed.

Lemma lookup_overwrite_outside b vs (m : Mem) x :
  b + length vs <= length m -> ~ (b <= x < b + length vs) ->
  overwrite b vs m !! x = m !! x.
Proof.
  intros Hb Hx. unfold overwrite.
  destruct (decide (x < b)) as [Hlt|Hge].
  - rewrite lookup_app_l by (rewrite length_take; lia).
    by rewrite lookup_take_lt.
  - rewrite lookup_app_r by (rewrite length_take; lia).
    rewrite length_take, lookup_app_r by lia.
    rewrite lookup_drop. f_equal. lia.
Qed.

(** A memory that agrees with [m0] outside the region and holds [vs] inside
    it is [m0] overwritten with [vs]. *)
Lemma written_overwrite m0 b n val vs (m1 : Mem) :
  b + n <= length m0 -> length vs = n ->
  (forall r, r < n -> val r = vs !! r) ->
  written m0 b n val (fun r => r < n) m1 -> m1 = overwrite b vs m0.
Proof.
  intros Hb Hvs Hval (Hl & Ho & Hi). apply list_eq. intros x.
  destruct (decide (b <= x < b + n)) as [Hx|Hx].
  - replace x with (b + (x - b)) by lia.
    rewrite lookup_overwrite_inside, Hi, Hval by lia. reflexivity.
  - rewrite lookup_overwrite_outside by lia. by apply Ho.
Qed.

Lemma runs_overwrite m0 b n val vs (c : M unit) :
  b + n <= length m0 -> length vs = n ->
  (forall r, r < n -> val r = vs !! r) ->
  writes m0 b n val c (fun r => r < n) ->
  c m0 = Ok (tt, overwrite b vs m0).
Proof.
  intros Hb Hvs Hval Hc.
  destruct (Hc _ _ (written_init m0 b n val)) as (m1 & Hrun & Hm1).
  rewrite Hrun. do 2 f_equal.
  apply (written_overwrite m0 b n val); [done..|].
  eapply written_weaken; [|exact Hm1]. intros r Hr. by right.
Qed.

Lemma overwrite_overwrite b vs vs' (m : Mem) :
  b + length vs <= length m -> length vs' = length vs ->
  overwrite b vs' (overwrite b vs m) = overwrite b vs' m.
Proof.
  intros Hb Hlen. apply list_eq. intros x.
  pose proof (length_overwrite b vs m Hb) as Hl.
  destruct (decide (b <= x < b + length vs)) as [Hx|Hx].
  - replace x with (b + (x - b)) by lia.
    rewrite !lookup_overwrite_inside by lia. reflexivity.
  - rewrite !lookup_overwrite_outside by lia. reflexivity.
Qed.

Lemma region_overwrite_disjoint a n b vs (m : Mem) :
  b + length vs <= length m ->
  a + n <= b \/ b + length vs <= a ->
  region a n (overwrite b vs m) = region a n m.
Proof.
  intros Hb Hd. apply list_eq. intros r.
  destruct (decide (r < n)) as [Hr|Hr].
  - rewrite !lookup_region by done.
    apply lookup_overwrite_outside; [done|lia].
  - unfold region. by rewrite !lookup_take_ge by lia.
Qed.

Lemma region_overwrite_same b vs (m : Mem) :
  b + length vs <= length m ->
  region b (length vs) (overwrite b vs m) = vs.
Proof.
  intros Hb. apply list_eq. intros r.
  destruct (decide (r < length vs)) as [Hr|Hr].
  - rewrite lookup_region by done. apply lookup_overwrite_inside; lia.
  - unfold region. rewrite lookup_take_ge by lia.
    symmetry. apply lookup_ge_None_2. lia.
Qed.

(** ** Accesses outside the storage *)

Lemma view_check_equals_fold_out_of_bounds lhs rhs (m : Mem) l acc :
  (exists i, i ∈ l /\
     (length m <= data lhs + i \/ length m <= data rhs + i)) ->
  reduce_each l
    (fun i local_result =>
       let* x := load (data lhs + i) in
       let* y := load (data rhs + i) in
       ret (bool_decide (x = y) && local_result)) acc m
  = Fail OutOfBounds.
Proof.
  revert acc. induction l as [|i l IH]; intros acc (j & Hj & Hout).
  - by apply elem_of_nil in Hj.
  - cbn [reduce_each]. unfold bind at 1. unfold bind at 1. unfold load at 1.
    destruct (m !! (data lhs + i)) as [x|] eqn:Hx; [|done].
    unfold bind at 1. unfold load at 1.
    destruct (m !! (data rhs + i)) as [y|] eqn:Hy; [|done].
    unfold ret at 1. apply IH. exists j. split; [|done].
    apply elem_of_cons in Hj as [->|Hj]; [|done].
    apply lookup_lt_Some in Hx, Hy. lia.
Qed.

Lemma view_init_runs view (m : Mem) :
  data view + span view <= length m ->
  view_init view m
  = Ok (tt, overwrite (data view) (Z.of_nat <$> seq 0 (span view)) m).
Proof.
  intros Hv. destruct view as [a es ss]. unfold span in *.
  cbn [data extents] in *.
  apply (runs_overwrite m a (size_of es) (fun r => Some (Z.of_nat r))).
  - done.
  - by rewrite length_fmap, length_seq.
  - intros r Hr. rewrite list_lookup_fmap, lookup_seq_lt by done. done.
  - by apply writes_view_init.
Qed.

(** X1: [view_init] on a view whose span is allocated, and is an [int] as
    the index of its lambda is, writes [i] at flat index [i] for every [i]
    below the span and nothing else, whatever the schedule. *)
Theorem view_init_spec view (m : Mem) :
  data view + span view <= length m ->
  Int.in_range (Z.of_nat (span view)) ->
  view_init view m
  = Ok (tt, overwrite (data view) (Z.of_nat <$> seq 0 (span view)) m).
Proof. intros Hv _. by apply view_init_runs. Qed.

(** X2: [view_check_equals] reads both views over the span of [lhs]: as
    soon as [lhs] has an element and one of the two views does not have
    [span lhs] cells in the storage, the call is an out-of-bounds access
    and yields no result; a shorter [rhs] is not reported as a
    difference. *)
Theorem view_check_equals_out_of_bounds lhs rhs (m : Mem) :
  0 < span lhs ->
  length m < data lhs + span lhs \/ length m < data rhs + span lhs ->
  view_check_equals lhs rhs m = Fail OutOfBounds.
Proof.
  intros Hpos Hout. unfold view_check_equals, parallel_reduce.
  apply view_check_equals_fold_out_of_bounds.
  exists (span lhs - 1). split; [|lia].
  apply elem_of_sched_2, elem_of_seq. lia.
Qed.

(** ** The sum reduction on any content *)

Lemma sched_nil {I} : sched (@nil I) = [].
Proof. apply Permutation_nil. symmetry. apply sched_fair. Qed.

Lemma sum_cells_perm (l1 l2 : list Z) :
  l1 ≡ₚ l2 -> sum_cells l1 = sum_cells l2.
Proof. unfold sum_cells. induction 1; simpl; lia. Qed.

Lemma sum_cells_replicate k value :
  sum_cells (replicate k value) = (value * Z.of_nat k)%Z.
Proof. unfold sum_cells. induction k as [|k IH]; simpl; lia. Qed.

Lemma sum_fold_cells base (m : Mem) l acc :
  (forall i, i ∈ l -> is_Some (m !! (base + i))) ->
  reduce_each l
    (fun i lsum => let* x := load (base + i) in ret (lsum + x)%Z) acc m
  = Ok (Z.add acc
          (sum_cells ((fun i => default 0%Z (m !! (base + i))) <$> l)), m).
Proof.
  revert acc. induction l as [|i l IH]; intros acc Hl; cbn [reduce_each].
  - unfold ret. do 2 f_equal. unfold sum_cells. simpl. lia.
  - destruct (Hl i) as [x Hx]; [apply elem_of_cons; by left|].
    rewrite (bind_ok _ _ m (acc + x)%Z m).
    2: { by rewrite (bind_ok _ _ _ _ _ (load_ok _ _ _ Hx)). }
    rewrite IH by (intros j Hj; apply Hl, elem_of_cons; by right).
    do 2 f_equal. unfold sum_cells. cbn [fmap list_fmap foldr].
    rewrite Hx. simpl. lia.
Qed.

Lemma cells_region b n (m : Mem) :
  b + n <= length m ->
  (fun i => default 0%Z (m !! (b + i))) <$> seq 0 n = region b n m.
Proof.
  intros Hb. apply list_eq. intros r.
  destruct (decide (r < n)) as [Hr|Hr].
  - rewrite list_lookup_fmap, lookup_seq_lt, lookup_region by done.
    destruct (lookup_lt_is_Some_2 m (b + r)) as [x Hx]; [lia|].
    simpl. by rewrite Hx.
  - rewrite !lookup_ge_None_2; [done|..].
    + rewrite length_region; lia.
    + rewrite length_fmap, length_seq. lia.
Qed.

Lemma sum_of_B_cells B (m : Mem) :
  data B + span B <= length m ->
  sum_of_B B m = Ok (sum_cells (region (data B) (span B) m), m).
Proof.
  intros HB. unfold sum_of_B, parallel_reduce. rewrite sum_fold_cells.
  - do 2 f_equal. rewrite Z.add_0_l, <- cells_region by done.
    apply sum_cells_perm, fmap_Permutation, sched_fair.
  - intros i Hi%elem_of_sched_1%elem_of_seq.
    apply lookup_lt_is_Some_2. lia.
Qed.

Lemma check_sum_of_cells N B value (m : Mem) :
  data B + span B <= length m ->
  check_sum_of N B value m
  = Ok (bool_decide (sum_cells (region (data B) (span B) m)
                     = (value * N ^ Z.of_nat (rank B))%Z), m).
Proof.
  intros HB. unfold check_sum_of.
  rewrite (bind_ok _ _ _ _ _ (sum_of_B_cells _ _ HB)).
  by rewrite correct_sum_eq, length_seq.
Qed.

(** X3: [check_sum] adds the cells of [B] in the order of the schedule and
    compares the sum with [fill_value] times [N] to the rank of [B]; it
    leaves memory as it is.  It returns true for every content of [B] with
    that sum, not only for a view filled with [fill_value]. *)
Theorem check_sum_spec N B (m : Mem) :
  data B + span B <= length m ->
  Int.in_range (Z.of_nat (span B)) ->
  exact_double (sum_cells (Z.abs <$> region (data B) (span B) m)) ->
  exact_double (fill_value * N ^ Z.of_nat (rank B)) ->
  check_sum N B m
  = Ok (bool_decide (sum_cells (region (data B) (span B) m)
                     = (fill_value * N ^ Z.of_nat (rank B))%Z), m).
Proof. intros HB _ _ _. by apply check_sum_of_cells. Qed.

(** ** The tests, from any state *)

Lemma copy_then_check dispatch A B (m : Mem) :
  data A + span A <= length m -> data B + span A <= length m ->
  data A + span A <= data B \/ data B + span A <= data A ->
  writes m (data B) (span A) (fun r => m !! (data A + r)) dispatch
         (fun r => r < span A) ->
  (dispatch ;; view_check_equals A B) m
  = Ok (true, overwrite (data B) (region (data A) (span A) m) m).
Proof.
  intros HA HB Hd Hw.
  pose proof (length_region (data A) (span A) m HA) as Hlen.
  rewrite (bind_ok _ _ m tt
             (overwrite (data B) (region (data A) (span A) m) m)).
  2: { apply (runs_overwrite m _ (span A) (fun r => m !! (data A + r)));
         [done|done| |done].
       intros r Hr. by rewrite lookup_region. }
  apply view_check_equals_ok.
  - rewrite length_overwrite; lia.
  - rewrite length_overwrite; lia.
  - intros i Hi.
    rewrite lookup_overwrite_outside, lookup_overwrite_inside by lia.
    by rewrite lookup_region.
Qed.

Lemma filled_cells b k value (m : Mem) i :
  b + k <= length m -> i < k ->
  overwrite b (replicate k value) m !! (b + i) = Some value.
Proof.
  intros Hb Hi. rewrite lookup_overwrite_inside.
  - by apply lookup_replicate_2.
  - lia.
  - by rewrite length_replicate.
Qed.

Lemma fill_runs dispatch B value (m : Mem) :
  data B + span B <= length m ->
  writes m (data B) (span B) (fun _ => Some value) dispatch
         (fun r => r < span B) ->
  dispatch m = Ok (tt, overwrite (data B) (replicate (span B) value) m).
Proof.
  intros HB Hw.
  apply (runs_overwrite m _ (span B) (fun _ => Some value)); [done| | |done].
  - by rewrite length_replicate.
  - intros r Hr. symmetry. by apply lookup_replicate_2.
Qed.

Lemma check_sum_filled N B k (m : Mem) :
  (0 <= N)%Z -> extents B = make_array k (Z.to_nat N) ->
  data B + span B <= length m ->
  let m' := overwrite (data B) (replicate (span B) fill_value) m in
  sum_of_B B m' = Ok ((fill_value * Z.of_nat (span B))%Z, m') /\
  check_sum N B m' = Ok (true, m').
Proof.
  intros HN Hext HB m'.
  assert (forall i, i < span B -> m' !! (data B + i) = Some fill_value)
    as Hfilled by (intros i Hi; by apply filled_cells).
  split; [by apply sum_of_B_filled|].
  by apply (check_sum_of_filled N B m' fill_value k).
Qed.

Section AnyState.
Variable L : Layout.
Variable N : Z.
Variables e1 : nat.
Variable es : list nat.
Variables a b : nat.
Variable m : Mem.
Variable lanes : nat.

Abbreviation ext := (Z.to_nat N :: e1 :: es).
Abbreviation n := (size_of ext).
Abbreviation A := (whole_view L a ext).
Abbreviation B := (whole_view L b ext).

Hypothesis A_allocated : a + n <= length m.
Hypothesis B_allocated : b + n <= length m.
Hypothesis disjoint : a + n <= b \/ b + n <= a.

Lemma test_local_deepcopy_runs :
  0 < lanes ->
  test_local_deepcopy N A B lanes m
  = Ok (true, overwrite b (region a n m) m).
Proof using A_allocated B_allocated disjoint.
  intros Hlanes.
  apply (copy_then_check (copy_by_teams N A B lanes) A B m); [done..|].
  by apply writes_copy_by_teams.
Qed.

Lemma test_local_deepcopy_range_runs :
  test_local_deepcopy_range N A B m
  = Ok (true, overwrite b (region a n m) m).
Proof using A_allocated B_allocated disjoint.
  apply (copy_then_check (copy_by_range N A B) A B m); [done..|].
  by apply writes_copy_by_range.
Qed.

Lemma test_local_deepcopy_thread_runs :
  (1 <= N <= Int.max_int)%Z -> e1 = Z.to_nat N ->
  test_local_deepcopy_thread N A B lanes m
  = Ok (true, overwrite b (region a n m) m).
Proof using A_allocated B_allocated disjoint.
  intros HN He1. revert A_allocated B_allocated disjoint. rewrite He1.
  intros HA HB Hd.
  apply (copy_then_check
           (copy_by_threads N
              (whole_view L a (Z.to_nat N :: Z.to_nat N :: es))
              (whole_view L b (Z.to_nat N :: Z.to_nat N :: es)) lanes)
           (whole_view L a (Z.to_nat N :: Z.to_nat N :: es))
           (whole_view L b (Z.to_nat N :: Z.to_nat N :: es)) m); [done..|].
  by apply writes_copy_by_threads.
Qed.

Lemma reset_b_runs :
  reset_b B m = Ok (tt, overwrite b (replicate n 0%Z) m).
Proof using B_allocated.
  clear A_allocated disjoint.
  apply (fill_runs (reset_b B) B 0%Z m); [done|].
  unfold reset_b, deep_copy, span. cbn [data extents whole_view].
  eapply writes_weaken; [|apply writes_parallel_for with
    (S := fun i r => r = i)].
  - intros r Hr. exists r. split; [|done]. apply elem_of_seq. lia.
  - intros i Hi%elem_of_seq. apply writes_store; [done|lia|done].
Qed.

Lemma test_local_deepcopy_scalar_runs k :
  (0 <= N)%Z -> ext = make_array k (Z.to_nat N) -> 0 < lanes ->
  test_local_deepcopy_scalar N B lanes m
  = Ok (true, overwrite b (replicate n fill_value) m).
Proof using B_allocated.
  clear A_allocated disjoint. intros HN Hext Hlanes.
  unfold test_local_deepcopy_scalar.
  rewrite (bind_ok _ _ m tt (overwrite b (replicate n fill_value) m)).
  2: { apply (fill_runs _ B fill_value m); [done|].
       by apply writes_fill_by_teams. }
  by destruct (check_sum_filled N B k m HN Hext B_allocated).
Qed.

Lemma test_local_deepcopy_scalar_range_runs k :
  (0 <= N)%Z -> ext = make_array k (Z.to_nat N) ->
  test_local_deepcopy_scalar_range N B m
  = Ok (true, overwrite b (replicate n fill_value) m).
Proof using B_allocated.
  clear A_allocated disjoint. intros HN Hext.
  unfold test_local_deepcopy_scalar_range.
  rewrite (bind_ok _ _ m tt (overwrite b (replicate n fill_value) m)).
  2: { apply (fill_runs _ B fill_value m); [done|].
       by apply writes_fill_by_range. }
  destruct (check_sum_filled N B k m HN Hext B_allocated) as [Hsum Hcheck].
  by rewrite (bind_ok _ _ _ _ _ Hsum).
Qed.
End AnyState.

(** ** The two drivers of the class *)

Section Policies.
Variable L : Layout.
Variable R : nat.
Variable N : Z.
Variables a b : nat.
Variable m : Mem.
Variable lanes : nat.

Abbreviation ext := (make_array (S (S R)) (Z.to_nat N)).
Abbreviation n := (size_of ext).
Abbreviation A := (whole_view L a ext).
Abbreviation B := (whole_view L b ext).

Hypothesis N_nonneg : (0 <= N)%Z.
Hypothesis A_allocated : a + n <= length m.
Hypothesis B_allocated : b + n <= length m.
Hypothesis disjoint : a + n <= b \/ b + n <= a.

(** Whatever [B] holds, a copy test leaves the cells of [A] in it. *)
Lemma copy_after_overwrite (test : M bool) vs :
  length vs = n ->
  (forall m' : Mem, a + n <= length m' -> b + n <= length m' ->
     test m' = Ok (true, overwrite b (region a n m') m')) ->
  test (overwrite b vs m) = Ok (true, overwrite b (region a n m) m).
Proof using A_allocated B_allocated disjoint.
  intros Hvs Htest.
  rewrite Htest by (rewrite length_overwrite; lia).
  rewrite region_overwrite_disjoint by lia.
  rewrite overwrite_overwrite; [done|lia|].
  rewrite length_region; lia.
Qed.

Lemma reset_b_after_overwrite vs :
  length vs = n ->
  reset_b B (overwrite b vs m) = Ok (tt, overwrite b (replicate n 0%Z) m).
Proof using B_allocated.
  clear A_allocated disjoint. intros Hvs. cbn [make_array] in *.
  rewrite reset_b_runs by (rewrite length_overwrite; lia).
  rewrite overwrite_overwrite; [done|lia|].
  rewrite length_replicate; lia.
Qed.

Lemma run_team_policy_runs :
  (1 <= N <= Int.max_int)%Z -> 0 < lanes ->
  run_team_policy N A B lanes m
  = Ok (true, overwrite b (replicate n fill_value) m).
Proof using A_allocated B_allocated disjoint.
  clear N_nonneg. intros HN Hlanes. unfold run_team_policy.
  pose proof (length_region a n m A_allocated) as Hreg.
  assert (length (overwrite b (replicate n 0%Z) m) = length m) as Hlen0.
  { apply length_overwrite. rewrite length_replicate. lia. }
  cbn [make_array] in *.
  rewrite (bind_ok _ _ m true (overwrite b (region a n m) m))
    by (by apply test_local_deepcopy_thread_runs).
  rewrite (bind_ok _ _ _ _ _ (reset_b_after_overwrite _ Hreg)).
  cbn [make_array].
  rewrite (bind_ok _ _ _ true (overwrite b (region a n m) m)).
  2: { apply copy_after_overwrite; [by rewrite length_replicate|].
       intros m' HA' HB'. by apply test_local_deepcopy_runs. }
  rewrite (bind_ok _ _ _ _ _ (reset_b_after_overwrite _ Hreg)).
  cbn [make_array].
  rewrite (bind_ok _ _ _ true (overwrite b (replicate n fill_value) m));
    [done|].
  rewrite test_local_deepcopy_scalar_runs with (k := S (S R));
    [|lia|lia|done|done].
  rewrite overwrite_overwrite; [done|rewrite length_replicate; lia|].
  by rewrite !length_replicate.
Qed.

Lemma run_range_policy_runs :
  run_range_policy N A B m
  = Ok (true, overwrite b (replicate n fill_value) m).
Proof using N_nonneg A_allocated B_allocated disjoint.
  unfold run_range_policy.
  pose proof (length_region a n m A_allocated) as Hreg.
  assert (length (overwrite b (replicate n 0%Z) m) = length m) as Hlen0.
  { apply length_overwrite. rewrite length_replicate. lia. }
  cbn [make_array] in *.
  rewrite (bind_ok _ _ m true (overwrite b (region a n m) m))
    by (by apply test_local_deepcopy_range_runs).
  rewrite (bind_ok _ _ _ _ _ (reset_b_after_overwrite _ Hreg)).
  cbn [make_array].
  rewrite (bind_ok _ _ _ true (overwrite b (replicate n fill_value) m));
    [done|].
  rewrite test_local_deepcopy_scalar_range_runs with (k := S (S R));
    [|lia|lia|done].
  rewrite overwrite_overwrite; [done|rewrite length_replicate; lia|].
  by rewrite !length_replicate.
Qed.
End Policies.

(** X4: from any memory in which [A] and [B] are allocated and do not
    overlap, whatever integers the two views hold, [test_local_deepcopy]
    and [test_local_deepcopy_range] pass and leave the cells of [B]
    replaced by those of [A] and every other cell, those of [A] included,
    as it was; the extents after the first are arbitrary. *)
Theorem copy_tests_from_any_state L N e1 es a b lanes (m : Mem) :
  let ext := Z.to_nat N :: e1 :: es in
  let n := size_of ext in
  0 < lanes -> Int.in_range (Z.of_nat n) ->
  a + n <= length m -> b + n <= length m -> a + n <= b \/ b + n <= a ->
  test_local_deepcopy N (whole_view L a ext) (whole_view L b ext) lanes m
  = Ok (true, overwrite b (region a n m) m) /\
  test_local_deepcopy_range N (whole_view L a ext) (whole_view L b ext) m
  = Ok (true, overwrite b (region a n m) m).
Proof.
  intros ext n Hlanes _ HA HB Hd. split.
  - by apply test_local_deepcopy_runs.
  - by apply test_local_deepcopy_range_runs.
Qed.

(** X5: the same for [test_local_deepcopy_thread], on views whose first
    two extents are the [int] N >= 1: the chunks of the threads together
    copy the whole of [A]. *)
Theorem thread_copy_test_from_any_state L N es a b lanes (m : Mem) :
  let ext := Z.to_nat N :: Z.to_nat N :: es in
  let n := size_of ext in
  (1 <= N <= Int.max_int)%Z -> Int.in_range (Z.of_nat n) ->
  a + n <= length m -> b + n <= length m -> a + n <= b \/ b + n <= a ->
  test_local_deepcopy_thread N (whole_view L a ext) (whole_view L b ext)
    lanes m
  = Ok (true, overwrite b (region a n m) m).
Proof.
  intros ext n HN _ HA HB Hd. by apply test_local_deepcopy_thread_runs.
Qed.

(** X6: from any memory in which [B], of extents N in every dimension, is
    allocated, whatever it holds, [test_local_deepcopy_scalar] and
    [test_local_deepcopy_scalar_range] pass and leave every cell of [B]
    equal to [fill_value] and every other cell as it was. *)
Theorem fill_tests_from_any_state L R N b lanes (m : Mem) :
  let ext := make_array (S (S R)) (Z.to_nat N) in
  let n := size_of ext in
  (0 <= N)%Z -> 0 < lanes -> Int.in_range (Z.of_nat n) ->
  exact_double (fill_value * Z.of_nat n) ->
  b + n <= length m ->
  test_local_deepcopy_scalar N (whole_view L b ext) lanes m
  = Ok (true, overwrite b (replicate n fill_value) m) /\
  test_local_deepcopy_scalar_range N (whole_view L b ext) m
  = Ok (true, overwrite b (replicate n fill_value) m).
Proof.
  intros ext n HN Hlanes _ _ HB. split.
  - by apply test_local_deepcopy_scalar_runs with (k := S (S R)).
  - by apply test_local_deepcopy_scalar_range_runs with (k := S (S R)).
Qed.

(** X7: [run_team_policy] passes its three tests from any memory in which
    [A] and [B] are allocated and do not overlap; [reset_b] zeroes [B]
    between them, so no test relies on what the one before wrote.  At the
    end every cell of [B] holds [fill_value] and all other cells, those
    of [A] included, are as they were. *)
Theorem run_team_policy_spec L R N a b lanes (m : Mem) :
  let ext := make_array (S (S R)) (Z.to_nat N) in
  let n := size_of ext in
  (1 <= N <= Int.max_int)%Z -> 0 < lanes -> Int.in_range (Z.of_nat n) ->
  exact_double (fill_value * Z.of_nat n) ->
  a + n <= length m -> b + n <= length m -> a + n <= b \/ b + n <= a ->
  reset_b (whole_view L b ext) m
  = Ok (tt, overwrite b (replicate n 0%Z) m) /\
  run_team_policy N (whole_view L a ext) (whole_view L b ext) lanes m
  = Ok (true, overwrite b (replicate n fill_value) m).
Proof.
  intros ext n HN Hlanes _ _ HA HB Hd. split.
  - apply (reset_b_runs L N (Z.to_nat N) (make_array R (Z.to_nat N))). done.
  - by apply run_team_policy_runs.
Qed.

(** X8: [run_range_policy] passes its two tests from any such memory and
    ends in the memory [run_team_policy] ends in. *)
Theorem run_range_policy_spec L R N a b (m : Mem) :
  let ext := make_array (S (S R)) (Z.to_nat N) in
  let n := size_of ext in
  (0 <= N)%Z -> Int.in_range (Z.of_nat n) ->
  exact_double (fill_value * Z.of_nat n) ->
  a + n <= length m -> b + n <= length m -> a + n <= b \/ b + n <= a ->
  run_range_policy N (whole_view L a ext) (whole_view L b ext) m
  = Ok (true, overwrite b (replicate n fill_value) m).
Proof.
  intros ext n HN _ _ HA HB Hd. by apply run_range_policy_runs.
Qed.

(** ** The tests of the class *)

Lemma overwrite_app (l1 l2 l3 vs : list Z) :
  length vs = length l2 ->
  overwrite (length l1) vs (l1 ++ l2 ++ l3) = l1 ++ vs ++ l3.
Proof.
  intros H. unfold overwrite.
  by rewrite take_app_length, drop_app_add, H, drop_app_length.
Qed.

Lemma constructor_runs L Rank N (mi : Mem) :
  let es := make_array Rank (Z.to_nat N) in
  TestLocalDeepCopyRank L Rank N mi
  = Ok ((whole_view L (length mi) es,
         whole_view L (length mi + size_of es) es),
        mi ++ (Z.of_nat <$> seq 0 (size_of es))
           ++ replicate (size_of es) 0%Z).
Proof.
  intros es. unfold TestLocalDeepCopyRank, bind, view_create. fold es.
  rewrite length_app, length_replicate. rewrite view_init_runs.
  - unfold span, whole_view. cbn [data extents].
    rewrite <- app_assoc, overwrite_app; [done|].
    by rewrite length_fmap, length_seq, length_replicate.
  - unfold span. cbn [data extents].
    rewrite !length_app, !length_replicate. lia.
Qed.

Section Blocks.
Variable L : Layout.
Variable Rank : nat.
Variable mi : Mem.
Hypothesis rank_ok : 2 <= Rank.

Abbreviation n := (size_of (make_array Rank (Z.to_nat 8))).
Abbreviation m0 :=
  (mi ++ (Z.of_nat <$> seq 0 n) ++ replicate n 0%Z).

Lemma filled_block :
  overwrite (length mi + n) (replicate n fill_value) m0
  = mi ++ block_memory Rank.
Proof using Type.
  clear rank_ok. unfold block_memory. cbv zeta. rewrite !app_assoc.
  replace (length mi + n) with (length (mi ++ (Z.of_nat <$> seq 0 n)))
    by (by rewrite length_app, length_fmap, length_seq).
  rewrite <- (app_nil_r (replicate n 0%Z)).
  rewrite overwrite_app by (by rewrite !length_replicate).
  by rewrite app_nil_r.
Qed.

Lemma length_constructed : length m0 = length mi + n + n.
Proof using Type.
  clear rank_ok.
  rewrite !length_app, length_fmap, length_seq, length_replicate. lia.
Qed.

Lemma team_policy_block_runs lanes :
  0 < lanes ->
  team_policy_block L Rank lanes mi = Ok (true, mi ++ block_memory Rank).
Proof using rank_ok.
  intros Hlanes. pose proof length_constructed as Hlen.
  rewrite <- filled_block. revert Hlen.
  destruct Rank as [|[|R]]; [lia..|]. intros Hlen.
  unfold team_policy_block.
  rewrite (bind_ok _ _ _ _ _ (constructor_runs L (S (S R)) 8 mi)).
  cbn [fst snd].
  apply run_team_policy_runs; [lia|lia|lia|unfold Int.max_int; lia|done].
Qed.

Lemma range_policy_block_runs :
  range_policy_block L Rank mi = Ok (true, mi ++ block_memory Rank).
Proof using rank_ok.
  pose proof length_constructed as Hlen.
  rewrite <- filled_block. revert Hlen.
  destruct Rank as [|[|R]]; [lia..|]. intros Hlen.
  unfold range_policy_block.
  rewrite (bind_ok _ _ _ _ _ (constructor_runs L (S (S R)) 8 mi)).
  cbn [fst snd].
  apply run_range_policy_runs; lia.
Qed.
End Blocks.

Lemma blocks_run (block : nat -> M bool) ranks acc (mi : Mem) :
  (forall Rank (m : Mem), Rank ∈ ranks ->
     block Rank m = Ok (true, m ++ block_memory Rank)) ->
  reduce_each ranks
    (fun Rank ok => let* passed := block Rank in ret (ok && passed)) acc mi
  = Ok (acc, mi ++ (ranks ≫= block_memory)).
Proof.
  revert acc mi. induction ranks as [|r ranks IH]; intros acc mi Hblock.
  - cbn [reduce_each]. unfold ret. by rewrite app_nil_r.
  - cbn [reduce_each].
    rewrite (bind_ok _ _ mi (acc && true) (mi ++ block_memory r)).
    2: { rewrite (bind_ok _ _ _ _ _ (Hblock r mi ltac:(apply elem_of_cons;
                                                       by left))). done. }
    rewrite IH by (intros k m Hk; apply Hblock, elem_of_cons; by right).
    rewrite andb_true_r, <- app_assoc. reflexivity.
Qed.

Lemma tested_ranks_ok Rank : Rank ∈ tested_ranks -> 2 <= Rank <= 8.
Proof.
  unfold tested_ranks. rewrite !elem_of_cons, elem_of_nil. lia.
Qed.


(** ** Creation of the views *)

Lemma lookup_make_array {T} n (x : T) k :
  k < n -> make_array n x !! k = Some x.
Proof.
  revert k. induction n as [|n IH]; intros k Hk; [lia|].
  destruct k as [|k]; [done|]. cbn [make_array]. apply IH. lia.
Qed.

Lemma size_of_make_array_pos k e : 1 <= e -> 1 <= size_of (make_array k e).
Proof.
  intros He. induction k as [|k IH]; [done|].
  cbn [make_array size_of]. nia.
Qed.

(** X10: [view_create] leaves the memory it finds as it is and appends
    the storage of the new view, zero-initialised.  The view has the
    requested rank, extent N in every dimension and N to the rank
    elements, and its indexing is a bijection between the index tuples in
    bounds and the new cells. *)
Theorem view_create_spec L Rank N (m : Mem) :
  (0 <= N <= Int.max_int)%Z ->
  exists v,
    view_create L Rank N m = Ok (v, m ++ replicate (span v) 0%Z) /\
    data v = length m /\ rank v = Rank /\
    (forall k, k < Rank -> extents v !! k = Some (Z.to_nat N)) /\
    Z.of_nat (span v) = (N ^ Z.of_nat Rank)%Z /\
    (forall idx, in_bounds (extents v) idx ->
       length m <= elem_addr v idx < length m + span v) /\
    (forall idx1 idx2,
       in_bounds (extents v) idx1 -> in_bounds (extents v) idx2 ->
       elem_addr v idx1 = elem_addr v idx2 -> idx1 = idx2) /\
    (forall x, length m <= x < length m + span v ->
       exists idx, in_bounds (extents v) idx /\ elem_addr v idx = x).
Proof.
  intros HN.
  exists (mkView (length m) (make_array Rank (Z.to_nat N))
            (layout_strides L (make_array Rank (Z.to_nat N)))).
  split; [reflexivity|].
  unfold rank, span, elem_addr. cbn [data extents strides].
  split; [done|]. split; [apply length_make_array|].
  split; [intros k Hk; by apply lookup_make_array|].
  split; [rewrite size_of_make_array, Z2Nat.id by lia; done|].
  split; [|split].
  - intros idx Hidx. pose proof (layout_bound L _ _ Hidx). lia.
  - intros idx1 idx2 H1 H2 Heq. apply (layout_inj L _ _ _ H1 H2). lia.
  - intros x Hx.
    destruct (layout_surj L (make_array Rank (Z.to_nat N)) (x - length m))
      as (idx & Hidx & Hoff); [lia|].
    exists idx. split; [done|lia].
Qed.

(** ** The checks detect a dispatch that copies nothing *)

Lemma region_eq b n (m : Mem) vs :
  length vs = n -> b + n <= length m ->
  (forall i, i < n -> m !! (b + i) = vs !! i) -> region b n m = vs.
Proof.
  intros Hvs Hb Heq. apply list_eq. intros r.
  destruct (decide (r < n)) as [Hr|Hr].
  - rewrite lookup_region by done. by apply Heq.
  - rewrite !lookup_ge_None_2; [done|lia|]. rewrite length_region; lia.
Qed.

(** X11: right after the constructor, for views of at least two cells
    ([Rank >= 1], [N >= 2]), [view_check_equals(A, B)] and [check_sum()]
    both return false: a primitive that wrote nothing would fail every
    test of the class. *)
Theorem checks_fail_before_dispatch L Rank N (mi : Mem) :
  1 <= Rank -> (2 <= N <= Int.max_int)%Z ->
  Int.in_range (Z.of_nat (size_of (make_array Rank (Z.to_nat N)))) ->
  exact_double (fill_value * N ^ Z.of_nat Rank) ->
  exists A B m0,
    TestLocalDeepCopyRank L Rank N mi = Ok ((A, B), m0) /\
    view_check_equals A B m0 = Ok (false, m0) /\
    check_sum N B m0 = Ok (false, m0).
Proof.
  intros HR HN _ _.
  destruct (constructor_spec L Rank N mi)
    as (m0 & Hctor & Hlen & HA & HB & Hmi).
  set (es := make_array Rank (Z.to_nat N)) in *.
  assert (2 <= size_of es) as Hsize.
  { unfold es. destruct Rank as [|k]; [lia|]. cbn [make_array size_of].
    pose proof (size_of_make_array_pos k (Z.to_nat N) ltac:(lia)). nia. }
  eexists _, _, m0. split; [exact Hctor|]. split.
  - destruct (view_check_equals_fold
                (mkView (length mi) es (layout_strides L es))
                (mkView (length mi + size_of es) es (layout_strides L es))
                m0 (sched (seq 0 (size_of es))) true)
      as (result & Hrun & Hres).
    { intros i Hi%elem_of_sched_1%elem_of_seq. cbn [data].
      split; apply lookup_lt_is_Some_2; lia. }
    unfold view_check_equals, parallel_reduce, span. cbn [extents].
    rewrite Hrun. destruct result; [exfalso|done].
    destruct Hres as [Hres _]. destruct (Hres eq_refl) as [_ Hall].
    specialize (Hall 1). cbn [data] in Hall.
    rewrite HA, HB in Hall by lia.
    discriminate Hall. apply elem_of_sched_2, elem_of_seq. lia.
  - unfold check_sum. rewrite check_sum_of_cells
      by (unfold span; cbn [data extents]; lia).
    unfold span, rank. cbn [data extents].
    rewrite (region_eq _ _ _ (replicate (size_of es) 0%Z)).
    + rewrite sum_cells_replicate. unfold es.
      rewrite length_make_array, bool_decide_eq_false_2; [done|].
      assert (0 < N ^ Z.of_nat Rank)%Z by (apply Z.pow_pos_nonneg; lia).
      unfold fill_value. lia.
    + by rewrite length_replicate.
    + lia.
    + intros i Hi. rewrite HB by done. symmetry.
      by apply lookup_replicate_2.
Qed.

(** ** More on the chunk arithmetic *)

(** X12: for [int] values N >= 1 and T >= 1 no operation of the chunk
    arithmetic overflows: [unitsOfWork] is N / T rounded up, there are at
    most T and at most N batches, every chunk holds exactly [unitsOfWork]
    indices (the clamp never changes [stop]), and the indices no chunk
    holds are fewer than [unitsOfWork].  With at least as many threads as
    units every chunk is one index; with one thread there is one chunk of
    N indices. *)
Theorem chunk_arithmetic N T :
  (1 <= N <= Int.max_int)%Z -> (1 <= T <= Int.max_int)%Z ->
  (unitsOfWork N T = (N + T - 1) / T /\
   1 <= numberOfBatches N T <= T /\ numberOfBatches N T <= N /\
   (forall idx, 0 <= idx < numberOfBatches N T ->
      chunk_start (unitsOfWork N T) idx = idx * unitsOfWork N T /\
      chunk_stop N (unitsOfWork N T) idx = (idx + 1) * unitsOfWork N T /\
      (idx + 1) * unitsOfWork N T <= N) /\
   0 <= N - numberOfBatches N T * unitsOfWork N T < unitsOfWork N T /\
   (N <= T -> unitsOfWork N T = 1 /\ numberOfBatches N T = N) /\
   (T = 1 -> unitsOfWork N T = N /\ numberOfBatches N T = 1))%Z.
Proof.
  intros HN HT.
  pose proof (unitsOfWork_eq N T HN HT) as Hu.
  pose proof (unitsOfWork_range N T HN HT) as Hur.
  pose proof (numberOfBatches_eq N T HN HT) as Hb.
  pose proof (numberOfBatches_range N T HN HT) as Hbr.
  rewrite Z.quot_div_nonneg, Z.rem_mod_nonneg in Hu by lia.
  rewrite Z.quot_div_nonneg in Hb by lia.
  pose proof (Z.div_mod N T ltac:(lia)) as HdT.
  pose proof (Z.mod_pos_bound N T ltac:(lia)) as HmT.
  pose proof (Z.div_mod N (unitsOfWork N T) ltac:(lia)) as Hdu.
  pose proof (Z.mod_pos_bound N (unitsOfWork N T) ltac:(lia)) as Hmu.
  assert (unitsOfWork N T = (N + T - 1) / T)%Z as Hceil.
  { rewrite Hu. case_decide as Hm.
    - apply (Z.div_unique _ _ _ (N mod T - 1)); lia.
    - apply (Z.div_unique _ _ _ (T - 1)); lia. }
  assert (N <= unitsOfWork N T * T)%Z as Henough.
  { rewrite Hu. case_decide; nia. }
  split; [exact Hceil|]. split.
  { split; [lia|]. rewrite Hb. apply Z.div_le_upper_bound; lia. }
  split; [nia|]. split.
  { intros idx Hidx. rewrite chunk_start_eq, chunk_stop_eq by done. nia. }
  split; [rewrite Hb at 1 2; nia|]. split.
  - intros Hle. assert (unitsOfWork N T = 1)%Z as H1.
    { rewrite Hu. destruct (decide (N = T)) as [->|Hne].
      - rewrite Z.div_same, Z.mod_same by lia.
        by rewrite decide_False by lia.
      - rewrite Z.div_small, Z.mod_small by lia.
        by rewrite decide_True by lia. }
    split; [done|]. rewrite Hb, H1. apply Z.div_1_r.
  - intros ->. assert (unitsOfWork N 1 = N)%Z as H1.
    { rewrite Hu, Z.div_1_r, Z.mod_1_r. rewrite decide_False by lia. lia. }
    split; [done|]. rewrite Hb, H1. apply Z.div_same. lia.
Qed.

(** ** The iterations of a dispatch write disjoint cells *)

(** X13: the subviews [extract_subview] gives different iterations of a
    dispatch share no element.  Two whole slices ([Kokkos::ALL]) of a
    dense view have an address in common only if they are the same
    slice, and then at the same index; two chunks (ranges of dimension 1)
    only if they belong to the same slice and their ranges overlap. *)
Theorem subviews_disjoint L d e e1 es (lid1 lid2 : nat) :
  lid1 < e -> lid2 < e ->
  (forall sv1 sv2 idx1 idx2,
     extract_subview (whole_view L d (e :: e1 :: es)) (Z.of_nat lid1) SelAll
       = Ok sv1 ->
     extract_subview (whole_view L d (e :: e1 :: es)) (Z.of_nat lid2) SelAll
       = Ok sv2 ->
     in_bounds (extents sv1) idx1 -> in_bounds (extents sv2) idx2 ->
     elem_addr sv1 idx1 = elem_addr sv2 idx2 ->
     lid1 = lid2 /\ idx1 = idx2) /\
  (forall (start1 stop1 start2 stop2 : nat) sv1 sv2 idx1 idx2,
     start1 <= stop1 <= e1 -> start2 <= stop2 <= e1 ->
     extract_subview (whole_view L d (e :: e1 :: es)) (Z.of_nat lid1)
       (SelRange (Z.of_nat start1) (Z.of_nat stop1)) = Ok sv1 ->
     extract_subview (whole_view L d (e :: e1 :: es)) (Z.of_nat lid2)
       (SelRange (Z.of_nat start2) (Z.of_nat stop2)) = Ok sv2 ->
     in_bounds (extents sv1) idx1 -> in_bounds (extents sv2) idx2 ->
     elem_addr sv1 idx1 = elem_addr sv2 idx2 ->
     lid1 = lid2 /\ start1 < stop2 /\ start2 < stop1).
Proof.
  intros Hlid1 Hlid2. unfold whole_view.
  destruct (layout_strides_cons L e (e1 :: es)) as (s & ss' & Hss & Hlen).
  destruct ss' as [|s1 ss]; [done|].
  assert (length ss = length es) as Hlen' by (simpl in Hlen; lia).
  rewrite Hss. split.
  - intros sv1 sv2 idx1 idx2.
    rewrite !extract_subview_all by done.
    intros [= <-] [= <-] H1 H2. unfold elem_addr.
    cbn [data extents strides] in *.
    intros Heq.
    assert (lid1 :: idx1 = lid2 :: idx2) as Hidx.
    { apply (layout_inj L (e :: e1 :: es)).
      - by apply in_bounds_cons.
      - by apply in_bounds_cons.
      - rewrite Hss, !offset_cons. lia. }
    by injection Hidx.
  - intros start1 stop1 start2 stop2 sv1 sv2 idx1 idx2 Hr1 Hr2.
    rewrite !extract_subview_range by done.
    intros [= <-] [= <-] H1 H2. unfold elem_addr.
    cbn [data extents strides] in *.
    apply in_bounds_inv_cons in H1 as (j1 & rest1 & -> & Hj1 & H1).
    apply in_bounds_inv_cons in H2 as (j2 & rest2 & -> & Hj2 & H2).
    rewrite !offset_cons. intros Heq.
    assert (lid1 :: start1 + j1 :: rest1 = lid2 :: start2 + j2 :: rest2)
      as Hidx.
    { apply (layout_inj L (e :: e1 :: es)).
      - apply in_bounds_cons. split; [done|].
        apply in_bounds_cons. split; [lia|done].
      - apply in_bounds_cons. split; [done|].
        apply in_bounds_cons. split; [lia|done].
      - rewrite Hss, !offset_cons. lia. }
    injection Hidx as Hl Hj _. lia.
Qed.

(** ** Empty views *)

Lemma parallel_for_nil {I} (body : I -> M unit) (m : Mem) :
  parallel_for [] body m = Ok (tt, m).
Proof. unfold parallel_for. by rewrite sched_nil. Qed.

(** X14: with N = 0 the views have no element, no iteration of any
    dispatch runs (in particular the division by the league size in
    [test_local_deepcopy_thread] is never evaluated), and the five tests
    pass without touching memory, wherever the views point. *)
Theorem empty_views_pass L R a b lanes (m : Mem) :
  let ext := make_array (S (S R)) (Z.to_nat 0) in
  test_local_deepcopy_thread 0 (whole_view L a ext) (whole_view L b ext)
    lanes m = Ok (true, m) /\
  test_local_deepcopy 0 (whole_view L a ext) (whole_view L b ext) lanes m
    = Ok (true, m) /\
  test_local_deepcopy_range 0 (whole_view L a ext) (whole_view L b ext) m
    = Ok (true, m) /\
  test_local_deepcopy_scalar 0 (whole_view L b ext) lanes m = Ok (true, m) /\
  test_local_deepcopy_scalar_range 0 (whole_view L b ext) m = Ok (true, m).
Proof.
  intros ext.
  assert (forall A B, span A = 0 -> view_check_equals A B m = Ok (true, m))
    as Hcheck.
  { intros A B HA. unfold view_check_equals, parallel_reduce.
    rewrite HA. change (seq 0 0) with (@nil nat). by rewrite sched_nil. }
  assert (forall c, sum_of_B (whole_view L c ext) m = Ok (0%Z, m)) as Hsum.
  { intros c. unfold sum_of_B, parallel_reduce.
    change (span (whole_view L c ext)) with 0.
    change (seq 0 0) with (@nil nat). by rewrite sched_nil. }
  assert (forall c, check_sum 0 (whole_view L c ext) m = Ok (true, m))
    as Hcheck_sum.
  { intros c. unfold check_sum, check_sum_of.
    rewrite (bind_ok _ _ _ _ _ (Hsum c)), correct_sum_eq, length_seq.
    unfold rank, whole_view, ext. cbn [extents].
    rewrite length_make_array, Z.pow_0_l by lia. done. }
  unfold test_local_deepcopy_thread, test_local_deepcopy,
    test_local_deepcopy_range, test_local_deepcopy_scalar,
    test_local_deepcopy_scalar_range, copy_by_threads, copy_by_teams,
    copy_by_range, fill_by_teams, fill_by_range, parallel_for_team,
    parallel_for_range.
  change (Int.range 0) with (@nil Z).
  repeat split.
  - rewrite (bind_ok _ _ _ _ _ (parallel_for_nil _ m)). by apply Hcheck.
  - rewrite (bind_ok _ _ _ _ _ (parallel_for_nil _ m)). by apply Hcheck.
  - rewrite (bind_ok _ _ _ _ _ (parallel_for_nil _ m)). by apply Hcheck.
  - rewrite (bind_ok _ _ _ _ _ (parallel_for_nil _ m)). apply Hcheck_sum.
  - rewrite (bind_ok _ _ _ _ _ (parallel_for_nil _ m)).
    rewrite (bind_ok _ _ _ _ _ (Hsum b)). apply Hcheck_sum.
Qed.

(** ** The memory the scratch test leaves *)

(** X15: [TEST(deep_copy_scratch)], for every [int] N >= 1 in place of
    8, passes and leaves the memory it found followed by [check_view_1]
    holding 0 .. N-1, [check_view_2] holding 6 and the scratch pad holding
    6: the outcome does not depend on what the scratch pad held, and
    nothing below the new views is touched. *)
Theorem deep_copy_scratch_final_memory N lanes junk (mi : Mem) :
  (1 <= N <= Int.max_int)%Z -> 0 < lanes ->
  deep_copy_scratch_with N lanes junk mi
  = Ok (true, mi ++ (Z.of_nat <$> seq 0 (Z.to_nat N))
                 ++ replicate (Z.to_nat N) 6%Z
                 ++ replicate (Z.to_nat N) 6%Z).
Proof.
  intros HN Hlanes.
  set (e := Z.to_nat N).
  set (c1 := length mi). set (c2 := c1 + e). set (sc := c2 + e).
  set (ma := ((mi ++ replicate e 0%Z) ++ replicate e 0%Z)
               ++ (junk <$> seq 0 e)).
  assert (length ma = sc + e) as Hlen.
  { unfold ma, sc, c2, c1.
    rewrite !length_app, !length_replicate, length_fmap, length_seq. lia. }
  destruct (DeepCopyScratchFunctor_spec e c1 c2 sc (mkTeamMember 0 1 lanes) ma)
    as (m1 & Hrun & Hl1 & Hframe & Hres); [done|unfold sc, c2; lia..|].
  assert (deep_copy_scratch_dispatch N lanes junk mi
          = Ok ((mkView c1 [e] [1], mkView c2 [e] [1]), m1)) as Hdispatch.
  { unfold deep_copy_scratch_dispatch, bind, view_create, team_scratch.
    cbn [make_array size_of layout_strides strides_right].
    fold e. rewrite Nat.mul_1_r.
    rewrite !length_app, !length_replicate. fold c1. fold c2. fold sc.
    fold ma. unfold parallel_for_team, parallel_for.
    change (Int.range 1) with [0%Z]. rewrite sched_singleton.
    cbn [for_each extents hd]. unfold bind. rewrite Hrun. reflexivity. }
  assert (m1 = mi ++ (Z.of_nat <$> seq 0 e) ++ replicate e 6%Z
                  ++ replicate e 6%Z) as <-.
  { apply list_eq. intros x.
    destruct (decide (x < c1)) as [Hx|Hx].
    { rewrite Hframe by (unfold sc, c2; lia).
      rewrite lookup_app_l by done. unfold ma.
      rewrite <- !app_assoc. by rewrite lookup_app_l. }
    rewrite lookup_app_r by (fold c1; lia). fold c1.
    destruct (decide (x < c2)) as [Hx2|Hx2].
    { replace x with (c1 + (x - c1)) at 1 by lia.
      destruct (Hres (x - c1)) as (-> & _ & _); [unfold c2 in Hx2; lia|].
      rewrite lookup_app_l by (rewrite length_fmap, length_seq;
                               unfold c2 in Hx2; lia).
      rewrite list_lookup_fmap, lookup_seq_lt by (unfold c2 in Hx2; lia).
      done. }
    rewrite lookup_app_r by (rewrite length_fmap, length_seq;
                             unfold c2 in Hx2; lia).
    rewrite length_fmap, length_seq.
    destruct (decide (x < sc)) as [Hx3|Hx3].
    { replace x with (c2 + (x - c2)) at 1 by lia.
      destruct (Hres (x - c2)) as (_ & -> & _); [unfold sc in Hx3; lia|].
      rewrite lookup_app_l by (rewrite length_replicate;
                               unfold sc, c2 in *; lia).
      symmetry. apply lookup_replicate_2. unfold sc, c2 in *. lia. }
    rewrite lookup_app_r by (rewrite length_replicate;
                             unfold sc, c2 in *; lia).
    rewrite length_replicate.
    destruct (decide (x < sc + e)) as [Hx4|Hx4].
    { replace x with (sc + (x - sc)) at 1 by lia.
      destruct (Hres (x - sc)) as (_ & _ & ->); [lia|].
      symmetry. apply lookup_replicate_2. unfold sc, c2 in *. lia. }
    rewrite !lookup_ge_None_2; [done| |lia].
    rewrite length_replicate. unfold sc, c2 in *. lia. }
  unfold deep_copy_scratch_with.
  rewrite (bind_ok _ _ _ _ _ Hdispatch). cbn [fst snd].
  apply scratch_asserts_fold. intros i Hi%elem_of_seq. fold e in Hi.
  destruct (Hres i ltac:(lia)) as (H1 & H2 & _).
  unfold elem_addr. cbn [data strides offset].
  rewrite !Nat.mul_1_r, !Nat.add_0_r. done.
Qed.

(** ** One call of each form on a whole view *)

Lemma whole_view_written L es b (m : Mem) val (c : M unit) :
  writes m b (size_of es) val c
    (fun r => exists idx, in_bounds es idx /\
                          r = 0 + offset (layout_strides L es) idx) ->
  writes m b (size_of es) val c (fun r => r < size_of es).
Proof.
  intros H. eapply writes_weaken; [|exact H]. intros r Hr.
  destruct (layout_surj L es r Hr) as (idx & Hb & Ho).
  exists idx. split; [done|lia].
Qed.

Lemma views_at_zero (P : View -> View -> Prop) es ss x y :
  P (mkView (x + 0) es ss) (mkView (y + 0) es ss) ->
  P (mkView x es ss) (mkView y es ss).
Proof. by rewrite !Nat.add_0_r. Qed.

Section OneCall.
Variable L : Layout.
Variable es : list nat.
Variables a b : nat.
Variable m : Mem.
Variable team : TeamMember.

Abbreviation n := (size_of es).
Abbreviation A := (whole_view L a es).
Abbreviation B := (whole_view L b es).

Hypothesis B_allocated : b + n <= length m.

Lemma inside_whole idx :
  in_bounds es idx -> 0 + offset (layout_strides L es) idx < n.
Proof using Type.
  clear B_allocated. intros H. pose proof (layout_bound L es idx H). lia.
Qed.

Ltac copy_call lemma form :=
  apply (runs_overwrite m b (size_of es) (fun r => m !! (a + r)));
    [done|by apply length_region
    |by intros r Hr; rewrite lookup_region|];
  apply (whole_view_written L); unfold whole_view;
  apply (views_at_zero
           (fun dst src =>
              writes m b (size_of es) (fun r => m !! (a + r))
                     (form dst src) _));
  apply lemma; (done || apply inside_whole).

Ltac fill_call lemma value :=
  apply (runs_overwrite m b (size_of es) (fun _ => Some value));
    [done|by rewrite length_replicate
    |by intros r Hr; symmetry; apply lookup_replicate_2|];
  apply (whole_view_written L); unfold whole_view;
  replace b with (b + 0) at 2 by lia;
  apply lemma; (done || apply inside_whole).

Lemma local_deep_copy_scalar_runs value :
  local_deep_copy_scalar B value m
  = Ok (tt, overwrite b (replicate n value) m).
Proof using B_allocated. fill_call writes_local_deep_copy_scalar value. Qed.

Lemma local_deep_copy_thread_scalar_runs value :
  local_deep_copy_thread_scalar team B value m
  = Ok (tt, overwrite b (replicate n value) m).
Proof using B_allocated. fill_call writes_local_deep_copy_thread_scalar value. Qed.

Lemma local_deep_copy_team_scalar_runs value :
  0 < team_size team ->
  local_deep_copy_team_scalar team B value m
  = Ok (tt, overwrite b (replicate n value) m).
Proof using B_allocated.
  intros Hteam. fill_call writes_local_deep_copy_team_scalar value.
Qed.

Hypothesis A_allocated : a + n <= length m.
Hypothesis disjoint : a + n <= b \/ b + n <= a.

Lemma local_deep_copy_runs :
  local_deep_copy B A m = Ok (tt, overwrite b (region a n m) m).
Proof using A_allocated B_allocated disjoint.
  copy_call writes_local_deep_copy local_deep_copy.
Qed.

Lemma local_deep_copy_thread_runs :
  local_deep_copy_thread team B A m
  = Ok (tt, overwrite b (region a n m) m).
Proof using A_allocated B_allocated disjoint.
  copy_call writes_local_deep_copy_thread (local_deep_copy_thread team).
Qed.

Lemma local_deep_copy_team_runs :
  0 < team_size team ->
  local_deep_copy_team team B A m = Ok (tt, overwrite b (region a n m) m).
Proof using A_allocated B_allocated disjoint.
  intros Hteam.
  copy_call writes_local_deep_copy_team (local_deep_copy_team team).
Qed.
End OneCall.


End Properties.

(** * Concrete runs *)

(** The runs below use the schedule [in_order] unless they name
    another. *)
#[local] Existing Instance in_order.

(** ** Running the tests on small inputs *)

Example subview_example :
  subview (mkView 10 [2; 3; 4] (layout_strides LayoutRight [2; 3; 4]))
          [SelIndex 1; SelRange 1 3; SelAll]
  = Ok (mkView 26 [2; 4] [4; 1]).
Proof. reflexivity. Qed.

Example extract_subview_example :
  extract_subview (mkView 0 [2; 3; 4] (layout_strides LayoutLeft [2; 3; 4]))
                  1 SelAll
  = Ok (mkView 1 [3; 4] [2; 6]).
Proof. reflexivity. Qed.

Example run_team_left :
  run_test LayoutLeft 3 2 (fun N A B => test_local_deepcopy N A B 3)
  = Ok (true, [0; 1; 2; 3; 4; 5; 6; 7; 0; 1; 2; 3; 4; 5; 6; 7]%Z).
Proof. reflexivity. Qed.

Example run_team_left_reversed :
  run_test (schedule := reversed) LayoutLeft 3 2
           (fun N A B => test_local_deepcopy (schedule := reversed) N A B 3)
  = Ok (true, [0; 1; 2; 3; 4; 5; 6; 7; 0; 1; 2; 3; 4; 5; 6; 7]%Z).
Proof. reflexivity. Qed.

Example run_thread_right :
  run_test LayoutRight 2 3 (fun N A B => test_local_deepcopy_thread N A B 2)
  = Ok (true, [0; 1; 2; 3; 4; 5; 6; 7; 8; 0; 1; 2; 3; 4; 5; 6; 7; 8]%Z).
Proof. reflexivity. Qed.

Example run_range_right :
  run_test LayoutRight 3 2 (fun N A B => test_local_deepcopy_range N A B)
  = Ok (true, [0; 1; 2; 3; 4; 5; 6; 7; 0; 1; 2; 3; 4; 5; 6; 7]%Z).
Proof. reflexivity. Qed.

Example run_scalar_left :
  run_test LayoutLeft 2 3 (fun N A B => test_local_deepcopy_scalar N B 4)
  = Ok (true, [0; 1; 2; 3; 4; 5; 6; 7; 8;
               20; 20; 20; 20; 20; 20; 20; 20; 20]%Z).
Proof. reflexivity. Qed.

Example run_scalar_range_right :
  run_test LayoutRight 2 2 (fun N A B => test_local_deepcopy_scalar_range N B)
  = Ok (true, [0; 1; 2; 3; 20; 20; 20; 20]%Z).
Proof. reflexivity. Qed.

Example run_scratch :
  deep_copy_scratch_with 3 2 (fun i => Z.of_nat i + 100)%Z []
  = Ok (true, [0; 1; 2; 6; 6; 6; 6; 6; 6]%Z).
Proof. reflexivity. Qed.

Example run_rank_one_rejected :
  run_test LayoutLeft 1 2 (fun N A B => test_local_deepcopy N A B 1)
  = Fail StaticAssert.
Proof. reflexivity. Qed.





Lemma chunks_partition_witness :
  chunks_disjoint 8 8 /\
  (forall idx j, in_chunk 8 8 idx j -> (0 <= j < 8)%Z) /\
  (forall j, (exists idx, in_chunk 8 8 idx j) <->
             (0 <= j < numberOfBatches 8 8 * unitsOfWork 8 8)%Z) /\
  (chunks_cover 8 8 <-> Z.rem 8 (unitsOfWork 8 8) = 0%Z) /\
  (8%Z = 8%Z -> chunks_cover 8 8).
Proof.
  apply (chunks_partition 8 8); unfold Int.max_int; lia.
Defined.

Lemma view_check_equals_spec_witness :
  exists result,
    view_check_equals (mkView 0 [2] [1]) (mkView 2 [2] [1]) [1; 2; 1; 3]%Z
      = Ok (result, [1; 2; 1; 3]%Z) /\
    (result = true <->
     forall i, i < span (mkView 0 [2] [1]) ->
       [1; 2; 1; 3]%Z !! (data (mkView 0 [2] [1]) + i)
       = [1; 2; 1; 3]%Z !! (data (mkView 2 [2] [1]) + i)).
Proof.
  apply (view_check_equals_spec (mkView 0 [2] [1]) (mkView 2 [2] [1])
           [1; 2; 1; 3]%Z).
  - unfold Int.in_range, Int.min_int, Int.max_int, span. simpl. lia.
  - unfold span. simpl. lia.
  - unfold span. simpl. lia.
Defined.

Lemma deep_copy_scratch_correct_witness :
  exists check_view_1 check_view_2 m1,
    deep_copy_scratch_dispatch 8 4 (fun i => Z.of_nat i) []
      = Ok ((check_view_1, check_view_2), m1) /\
    (forall i, i < Z.to_nat 8 ->
       m1 !! elem_addr check_view_1 [i] = Some (Z.of_nat i) /\
       m1 !! elem_addr check_view_2 [i] = Some 6%Z) /\
    deep_copy_scratch_with 8 4 (fun i => Z.of_nat i) [] = Ok (true, m1) /\
    (8%Z = 8%Z -> deep_copy_scratch 4 (fun i => Z.of_nat i) [] = Ok (true, m1)).
Proof.
  apply (deep_copy_scratch_correct 8 4 (fun i => Z.of_nat i) []); lia.
Defined.

Example view_check_equals_differ :
  view_check_equals (mkView 0 [2] [1]) (mkView 2 [2] [1]) [1; 2; 1; 3]%Z
  = Ok (false, [1; 2; 1; 3]%Z).
Proof. reflexivity. Qed.

(** ** Instances of the further properties *)

Lemma view_init_spec_witness :
  view_init (mkView 1 [2; 2] [1; 2]) [7; 7; 7; 7; 7; 7]%Z
  = Ok (tt, [7; 0; 1; 2; 3; 7]%Z).
Proof.
  apply (view_init_spec (mkView 1 [2; 2] [1; 2]) [7; 7; 7; 7; 7; 7]%Z).
  - unfold span. simpl. lia.
  - unfold Int.in_range, Int.min_int, Int.max_int, span. simpl. lia.
Defined.

Lemma view_check_equals_out_of_bounds_witness :
  view_check_equals (mkView 0 [4] [1]) (mkView 4 [2] [1])
    [1; 2; 3; 4; 1; 2]%Z
  = Fail OutOfBounds.
Proof.
  apply (view_check_equals_out_of_bounds (mkView 0 [4] [1])
           (mkView 4 [2] [1]) [1; 2; 3; 4; 1; 2]%Z).
  - unfold span. simpl. lia.
  - right. unfold span. simpl. lia.
Defined.

Lemma check_sum_spec_witness :
  check_sum 2 (mkView 0 [2; 2] [1; 2]) [80; 0; 0; 0]%Z
  = Ok (true, [80; 0; 0; 0]%Z).
Proof.
  apply (check_sum_spec 2 (mkView 0 [2; 2] [1; 2]) [80; 0; 0; 0]%Z).
  - unfold span. simpl. lia.
  - unfold Int.in_range, Int.min_int, Int.max_int, span. simpl. lia.
  - unfold exact_double. vm_compute. discriminate.
  - unfold exact_double. vm_compute. discriminate.
Defined.

Lemma copy_tests_from_any_state_witness :
  test_local_deepcopy 2 (whole_view LayoutRight 0 [2; 2])
    (whole_view LayoutRight 4 [2; 2]) 3 [5; 6; 7; 8; 1; 1; 1; 1; 9]%Z
  = Ok (true, [5; 6; 7; 8; 5; 6; 7; 8; 9]%Z) /\
  test_local_deepcopy_range 2 (whole_view LayoutRight 0 [2; 2])
    (whole_view LayoutRight 4 [2; 2]) [5; 6; 7; 8; 1; 1; 1; 1; 9]%Z
  = Ok (true, [5; 6; 7; 8; 5; 6; 7; 8; 9]%Z).
Proof.
  apply (copy_tests_from_any_state LayoutRight 2 2 [] 0 4 3
           [5; 6; 7; 8; 1; 1; 1; 1; 9]%Z).
  - lia.
  - unfold Int.in_range, Int.min_int, Int.max_int. simpl. lia.
  - simpl. lia.
  - simpl. lia.
  - simpl. lia.
Defined.

Lemma thread_copy_test_from_any_state_witness :
  test_local_deepcopy_thread 2 (whole_view LayoutLeft 4 [2; 2])
    (whole_view LayoutLeft 0 [2; 2]) 1 [1; 1; 1; 1; 5; 6; 7; 8]%Z
  = Ok (true, [5; 6; 7; 8; 5; 6; 7; 8]%Z).
Proof.
  apply (thread_copy_test_from_any_state LayoutLeft 2 [] 4 0 1
           [1; 1; 1; 1; 5; 6; 7; 8]%Z).
  - unfold Int.max_int. lia.
  - unfold Int.in_range, Int.min_int, Int.max_int. simpl. lia.
  - simpl. lia.
  - simpl. lia.
  - simpl. lia.
Defined.

Lemma fill_tests_from_any_state_witness :
  test_local_deepcopy_scalar 2 (whole_view LayoutLeft 1 [2; 2]) 2
    [1; 2; 3; 4; 5; 6]%Z
  = Ok (true, [1; 20; 20; 20; 20; 6]%Z) /\
  test_local_deepcopy_scalar_range 2 (whole_view LayoutLeft 1 [2; 2])
    [1; 2; 3; 4; 5; 6]%Z
  = Ok (true, [1; 20; 20; 20; 20; 6]%Z).
Proof.
  apply (fill_tests_from_any_state LayoutLeft 0 2 1 2 [1; 2; 3; 4; 5; 6]%Z).
  - lia.
  - lia.
  - unfold Int.in_range, Int.min_int, Int.max_int. simpl. lia.
  - unfold exact_double. vm_compute. discriminate.
  - simpl. lia.
Defined.

Lemma run_team_policy_spec_witness :
  reset_b (whole_view LayoutRight 4 [2; 2]) [5; 6; 7; 8; 1; 1; 1; 1; 9]%Z
  = Ok (tt, [5; 6; 7; 8; 0; 0; 0; 0; 9]%Z) /\
  run_team_policy 2 (whole_view LayoutRight 0 [2; 2])
    (whole_view LayoutRight 4 [2; 2]) 2 [5; 6; 7; 8; 1; 1; 1; 1; 9]%Z
  = Ok (true, [5; 6; 7; 8; 20; 20; 20; 20; 9]%Z).
Proof.
  apply (run_team_policy_spec LayoutRight 0 2 0 4 2
           [5; 6; 7; 8; 1; 1; 1; 1; 9]%Z).
  - unfold Int.max_int. lia.
  - lia.
  - unfold Int.in_range, Int.min_int, Int.max_int. simpl. lia.
  - unfold exact_double. vm_compute. discriminate.
  - simpl. lia.
  - simpl. lia.
  - simpl. lia.
Defined.

Lemma run_range_policy_spec_witness :
  run_range_policy 2 (whole_view LayoutLeft 0 [2; 2])
    (whole_view LayoutLeft 4 [2; 2]) [5; 6; 7; 8; 1; 1; 1; 1; 9]%Z
  = Ok (true, [5; 6; 7; 8; 20; 20; 20; 20; 9]%Z).
Proof.
  apply (run_range_policy_spec LayoutLeft 0 2 0 4
           [5; 6; 7; 8; 1; 1; 1; 1; 9]%Z).
  - lia.
  - unfold Int.in_range, Int.min_int, Int.max_int. simpl. lia.
  - unfold exact_double. vm_compute. discriminate.
  - simpl. lia.
  - simpl. lia.
  - simpl. lia.
Defined.


Lemma view_create_spec_witness :
  exists v,
    view_create LayoutLeft 2 3 [1; 2]%Z
      = Ok (v, [1; 2]%Z ++ replicate (span v) 0%Z) /\
    data v = length [1; 2]%Z /\ rank v = 2 /\
    (forall k, k < 2 -> extents v !! k = Some (Z.to_nat 3)) /\
    Z.of_nat (span v) = (3 ^ Z.of_nat 2)%Z /\
    (forall idx, in_bounds (extents v) idx ->
       length [1; 2]%Z <= elem_addr v idx < length [1; 2]%Z + span v) /\
    (forall idx1 idx2,
       in_bounds (extents v) idx1 -> in_bounds (extents v) idx2 ->
       elem_addr v idx1 = elem_addr v idx2 -> idx1 = idx2) /\
    (forall x, length [1; 2]%Z <= x < length [1; 2]%Z + span v ->
       exists idx, in_bounds (extents v) idx /\ elem_addr v idx = x).
Proof.
  apply (view_create_spec LayoutLeft 2 3 [1; 2]%Z).
  unfold Int.max_int. lia.
Defined.

Lemma checks_fail_before_dispatch_witness :
  exists A B m0,
    TestLocalDeepCopyRank LayoutLeft 2 2 [] = Ok ((A, B), m0) /\
    view_check_equals A B m0 = Ok (false, m0) /\
    check_sum 2 B m0 = Ok (false, m0).
Proof.
  apply (checks_fail_before_dispatch LayoutLeft 2 2 []).
  - lia.
  - unfold Int.max_int. lia.
  - unfold Int.in_range, Int.min_int, Int.max_int. simpl. lia.
  - unfold exact_double. vm_compute. discriminate.
Defined.

Lemma chunk_arithmetic_witness :
  (unitsOfWork 5 2 = (5 + 2 - 1) / 2 /\
   1 <= numberOfBatches 5 2 <= 2 /\ numberOfBatches 5 2 <= 5 /\
   (forall idx, 0 <= idx < numberOfBatches 5 2 ->
      chunk_start (unitsOfWork 5 2) idx = idx * unitsOfWork 5 2 /\
      chunk_stop 5 (unitsOfWork 5 2) idx = (idx + 1) * unitsOfWork 5 2 /\
      (idx + 1) * unitsOfWork 5 2 <= 5) /\
   0 <= 5 - numberOfBatches 5 2 * unitsOfWork 5 2 < unitsOfWork 5 2 /\
   (5 <= 2 -> unitsOfWork 5 2 = 1 /\ numberOfBatches 5 2 = 5) /\
   (2 = 1 -> unitsOfWork 5 2 = 5 /\ numberOfBatches 5 2 = 1))%Z.
Proof.
  apply (chunk_arithmetic 5 2); unfold Int.max_int; lia.
Defined.

Lemma subviews_disjoint_witness :
  (forall sv1 sv2 idx1 idx2,
     extract_subview (whole_view LayoutRight 0 [2; 3]) (Z.of_nat 0) SelAll
       = Ok sv1 ->
     extract_subview (whole_view LayoutRight 0 [2; 3]) (Z.of_nat 1) SelAll
       = Ok sv2 ->
     in_bounds (extents sv1) idx1 -> in_bounds (extents sv2) idx2 ->
     elem_addr sv1 idx1 = elem_addr sv2 idx2 ->
     0 = 1 /\ idx1 = idx2) /\
  (forall (start1 stop1 start2 stop2 : nat) sv1 sv2 idx1 idx2,
     start1 <= stop1 <= 3 -> start2 <= stop2 <= 3 ->
     extract_subview (whole_view LayoutRight 0 [2; 3]) (Z.of_nat 0)
       (SelRange (Z.of_nat start1) (Z.of_nat stop1)) = Ok sv1 ->
     extract_subview (whole_view LayoutRight 0 [2; 3]) (Z.of_nat 1)
       (SelRange (Z.of_nat start2) (Z.of_nat stop2)) = Ok sv2 ->
     in_bounds (extents sv1) idx1 -> in_bounds (extents sv2) idx2 ->
     elem_addr sv1 idx1 = elem_addr sv2 idx2 ->
     0 = 1 /\ start1 < stop2 /\ start2 < stop1).
Proof.
  apply (subviews_disjoint LayoutRight 0 2 3 [] 0 1); lia.
Defined.

Lemma deep_copy_scratch_final_memory_witness :
  deep_copy_scratch_with 3 2 (fun _ => 100%Z) [4; 5]%Z
  = Ok (true, [4; 5; 0; 1; 2; 6; 6; 6; 6; 6; 6]%Z).
Proof.
  apply (deep_copy_scratch_final_memory 3 2 (fun _ => 100%Z) [4; 5]%Z).
  - unfold Int.max_int. lia.
  - lia.
Defined.

Lemma extract_subview_alias_witness :
  exists sv,
    extract_subview (whole_view LayoutRight 0 [2; 3; 4]) 1 (SelRange 1 3)
      = Ok sv /\
    (forall m : Mem,
       lift (extract_subview (whole_view LayoutRight 0 [2; 3; 4]) 1
               (SelRange 1 3)) m = Ok (sv, m)) /\
    extents sv = [Z.to_nat (3 - 1); 4] /\
    forall idx, in_bounds (extents sv) idx ->
      let p := Z.to_nat 1 ::
               match idx with
               | j :: rest => Z.to_nat 1 + j :: rest
               | [] => []
               end in
      in_bounds (extents (whole_view LayoutRight 0 [2; 3; 4])) p /\
      elem_addr sv idx = elem_addr (whole_view LayoutRight 0 [2; 3; 4]) p.
Proof.
  apply (proj2 (extract_subview_alias (whole_view LayoutRight 0 [2; 3; 4]) 1
                  (SelRange 1 3)) 2 3 [4]).
  - reflexivity.
  - reflexivity.
  - lia.
  - simpl. lia.
Defined.
